(** * Offline-first note synchronisation: the notes service and its local store

    A shallow embedding of the TypeScript sources of the note-keeping
    application: the [Note] data model, the IndexedDB-backed local store
    ([indexedDBService], in the two designs found in the sources), and the
    [notesService] built on top of it (push of the sync queue, pull and
    merge, and the four local mutations).

    Asynchronous functions are embedded as computations in a state and
    exception monad over a [World]: the world holds the two object stores,
    the trace of Remote Adapter calls, and the host environment (clock,
    identifier source, network answers, storage faults) as oracles that are
    consumed in call order. *)

From stdpp Require Import gmap strings list fin_maps sorting.
From Stdlib Require Import ZArith Lia.

Local Open Scope Z_scope.

(** ** Data model (types.ts and the [SyncOperation] interface) *)

(** Modelled from the spec: the [updatedAt] field of [Note]. The service
    reads and writes it, but the declaration of [Note] that carries it is
    not among the sources (the [types.ts] at hand stops at [createdAt]); the
    spec gives it as an integer timestamp. *)
Record Note := mkNote {
  id : string;
  title : string;
  content : string;
  color : string;
  createdAt : Z;
  updatedAt : Z
}.

(** The argument of [createNote] and [updateNote]:
    [Omit<Note, 'id' | 'createdAt' | 'updatedAt'>]. *)
Record NoteInput := mkInput {
  in_title : string;
  in_content : string;
  in_color : string
}.

(** [operation] together with [data]: the callers build exactly these three
    shapes (a full note for 'create' and 'update', the bare id for
    'delete'). *)
Inductive Operation :=
| OpCreate (data : Note)
| OpUpdate (data : Note)
| OpDelete (data : string).

Record SyncOperation := mkOp {
  opId : option Z;
  operation : Operation;
  timestamp : Z
}.

Global Instance Note_eq_dec : EqDecision Note.
Proof. solve_decision. Defined.
Global Instance Operation_eq_dec : EqDecision Operation.
Proof. solve_decision. Defined.
Global Instance SyncOperation_eq_dec : EqDecision SyncOperation.
Proof. solve_decision. Defined.

(** ** The Remote Adapter as the service sees it *)

(** What is sent to the [notes] table. *)
Inductive RemoteCall :=
| Insert (rid rtitle rcontent rcolor : string) (created_at : Z)
| Update (rid rtitle rcontent rcolor : string) (updated_at : Z)
| UpdateColor (rid rcolor : string) (updated_at : Z)
| Delete (rid : string)
| SelectAll.

(** What awaiting a call yields: the promise rejects, or it resolves to a
    response [{ data, error }] (rows already converted to [Note]s; [data]
    may be null). *)
Inductive Awaited :=
| Rejected
| Resolved (data : option (list Note)) (error : bool).

(** ** Host environment and world *)

(** What can go wrong in a store method: [indexedDB.open] fails; starting
    the transaction or issuing the request throws; the request fires
    [onerror]. *)
Inductive IdbFault := NoFault | OpenError | TransactionError | RequestError.

Record Host := mkHost {
  VITE_SUPABASE_URL : string;
  VITE_SUPABASE_ANON_KEY : string;
  onLine : bool;                    (* navigator.onLine, steady during one call *)
  clock : nat → Z;                  (* successive readings of Date.now() *)
  uuids : nat → string;             (* successive results of uuidv4() *)
  remote : nat → Awaited;           (* answer to the n-th Remote Adapter call *)
  idbFault : nat → IdbFault         (* fault hitting the n-th store method call *)
}.

Record World := mkWorld {
  host : Host;
  tick : nat;
  uuidCtr : nat;
  idbCtr : nat;
  remoteLog : list RemoteCall;      (* Remote Adapter calls made so far *)
  db : bool;                        (* this.db is set *)
  notes : gmap string Note;         (* object store 'notes', keyPath 'id' *)
  syncQueue : gmap Z SyncOperation; (* object store of the sync queue, keyPath 'id' *)
  keyGen : Z                        (* key generator of an autoIncrement store *)
}.

(** ** Promises: state and exceptions *)

Inductive Error := RemoteError | StorageError | RangeError.

Inductive Result (A : Type) :=
| Val (a : A)
| Exn (e : Error).
Arguments Val {A} a.
Arguments Exn {A} e.

Definition M (A : Type) : Type := World → Result A * World.

Definition ret {A} (a : A) : M A := fun w => (Val a, w).

Definition bind {A B} (m : M A) (k : A → M B) : M B :=
  fun w => match m w with
           | (Val a, w') => k a w'
           | (Exn e, w') => (Exn e, w')
           end.

Definition throw {A} (e : Error) : M A := fun w => (Exn e, w).

Definition try_catch {A} (m : M A) (handler : Error → M A) : M A :=
  fun w => match m w with
           | (Val a, w') => (Val a, w')
           | (Exn e, w') => handler e w'
           end.

Declare Scope promise_scope.
Delimit Scope promise_scope with promise.
Notation "x <- c1 ;; c2" := (bind c1 (fun x => c2))
  (at level 100, c1 at next level, c2 at level 200, right associativity) : promise_scope.
Notation "c1 ;; c2" := (bind c1 (fun _ => c2))
  (at level 100, c2 at level 200, right associativity) : promise_scope.
Local Open Scope promise_scope.

(** [for (const x of l) await body(x)] *)
Fixpoint for_of {A} (l : list A) (body : A → M unit) : M unit :=
  match l with
  | [] => ret tt
  | x :: l' => body x ;; for_of l' body
  end.

(** The world after a computation, and its value. *)
Definition exec {A} (m : M A) (w : World) : World := (m w).2.
Definition eval {A} (m : M A) (w : World) : Result A := (m w).1.

(** ** Host primitives *)

Definition Date_now : M Z := fun w =>
  (Val (clock (host w) (tick w)),
   mkWorld (host w) (S (tick w)) (uuidCtr w) (idbCtr w) (remoteLog w)
           (db w) (notes w) (syncQueue w) (keyGen w)).

Definition uuidv4 : M string := fun w =>
  (Val (uuids (host w) (uuidCtr w)),
   mkWorld (host w) (tick w) (S (uuidCtr w)) (idbCtr w) (remoteLog w)
           (db w) (notes w) (syncQueue w) (keyGen w)).

(** [await supabase.from('notes')...]: the call is recorded, then the
    promise rejects or resolves as the host decides. *)
Definition await_supabase (c : RemoteCall) : M (option (list Note) * bool) := fun w =>
  let w' := mkWorld (host w) (tick w) (uuidCtr w) (idbCtr w) (remoteLog w ++ [c])
                    (db w) (notes w) (syncQueue w) (keyGen w) in
  match remote (host w) (length (remoteLog w)) with
  | Rejected => (Exn RemoteError, w')
  | Resolved data error => (Val (data, error), w')
  end.

(** [new Date(t).toISOString()]: a time value is at most 8.64e15
    milliseconds away from the epoch; for any other number the date is
    invalid and [toISOString] throws a RangeError. The string is kept as
    the time value it stands for. *)
Definition valid_time (t : Z) : bool :=
  (-8640000000000000 <=? t)%Z && (t <=? 8640000000000000)%Z.

Definition toISOString (t : Z) : M Z := fun w =>
  if valid_time t then (Val t, w) else (Exn RangeError, w).

(** [s.includes(sub)] *)
Fixpoint includes (s sub : string) : bool :=
  String.prefix sub s ||
  match s with
  | EmptyString => false
  | String _ s' => includes s' sub
  end.

Definition nonempty (s : string) : bool :=
  match s with EmptyString => false | _ => true end.

Definition isSupabaseConfigured (h : Host) : bool :=
  let url := VITE_SUPABASE_URL h in
  let key := VITE_SUPABASE_ANON_KEY h in
  nonempty url && nonempty key
  && negb (includes url "placeholder") && negb (includes key "placeholder").

Definition isOnline (h : Host) : bool := onLine h.

(** ** IndexedDB object stores *)

(** IndexedDB compares two string keys as arrays of 16-bit code units. A
    [string] here is the UTF-8 text of the JavaScript string, so a key is
    first read back into its code units. *)

Definition continuation (b : N) : bool := (128 <=? b)%N && (b <? 192)%N.

(** The code points written in a sequence of UTF-8 bytes. A byte that
    does not begin a sequence of the right shape reads as U+FFFD. *)
Fixpoint utf8_code_points (bytes : list N) : list N :=
  match bytes with
  | [] => []
  | b0 :: r0 =>
      if (b0 <? 128)%N then b0 :: utf8_code_points r0
      else
        match r0 with
        | [] => [65533%N]
        | b1 :: r1 =>
            if (192 <=? b0)%N && (b0 <? 224)%N && continuation b1
            then ((b0 - 192) * 64 + (b1 - 128))%N :: utf8_code_points r1
            else
              match r1 with
              | [] => 65533%N :: utf8_code_points r0
              | b2 :: r2 =>
                  if (224 <=? b0)%N && (b0 <? 240)%N
                     && continuation b1 && continuation b2
                  then ((b0 - 224) * 4096 + (b1 - 128) * 64 + (b2 - 128))%N
                       :: utf8_code_points r2
                  else
                    match r2 with
                    | [] => 65533%N :: utf8_code_points r0
                    | b3 :: r3 =>
                        if (240 <=? b0)%N && (b0 <? 248)%N && continuation b1
                           && continuation b2 && continuation b3
                        then ((b0 - 240) * 262144 + (b1 - 128) * 4096
                              + (b2 - 128) * 64 + (b3 - 128))%N
                             :: utf8_code_points r3
                        else 65533%N :: utf8_code_points r0
                    end
              end
        end
  end.

(** The code units of a code point: itself in the basic plane, a pair of
    surrogates above it. *)
Definition code_units (c : N) : list N :=
  if (c <? 65536)%N then [c]
  else [(55296 + (c - 65536) / 1024)%N; (56320 + (c - 65536) mod 1024)%N].

Definition utf16 (s : string) : list N :=
  utf8_code_points (Ascii.N_of_ascii <$> String.list_ascii_of_string s)
  ≫= code_units.

(** Array comparison, element by element; a proper prefix comes first. *)
Fixpoint units_leb (u v : list N) : bool :=
  match u, v with
  | [], _ => true
  | _ :: _, [] => false
  | x :: u', y :: v' => (x <? y)%N || ((x =? y)%N && units_leb u' v')
  end.

Definition key_order (a b : string) : Prop := units_leb (utf16 a) (utf16 b) = true.

(** [store.getAll()] returns the records in ascending key order. *)
Definition id_le (a b : string * Note) : Prop := key_order a.1 b.1.
Definition key_le (a b : Z * SyncOperation) : Prop := (a.1 ≤ b.1)%Z.

Global Instance id_le_dec : RelDecision id_le.
Proof. intros a b. unfold id_le, key_order. apply _. Defined.
Global Instance key_le_dec : RelDecision key_le.
Proof. intros a b. unfold key_le. apply _. Defined.

Definition notes_getAll (m : gmap string Note) : list Note :=
  (merge_sort id_le (map_to_list m)).*2.

Definition queue_entries (q : gmap Z SyncOperation) : list (Z * SyncOperation) :=
  merge_sort key_le (map_to_list q).

Definition queue_getAll (q : gmap Z SyncOperation) : list SyncOperation :=
  (queue_entries q).*2.

(** [Array.prototype.sort(cmp)]: a stable sort; [before a b] says that [a]
    may stay in front of [b], that is [cmp(a, b) <= 0]. *)
Fixpoint sort_insert {A} (before : A → A → bool) (x : A) (l : list A) : list A :=
  match l with
  | [] => [x]
  | y :: l' => if before x y then x :: y :: l' else y :: sort_insert before x l'
  end.

Definition js_sort {A} (before : A → A → bool) (l : list A) : list A :=
  foldr (sort_insert before) [] l.

(** [(a, b) => b.createdAt - a.createdAt] *)
Definition newest_first (a b : Note) : bool := (createdAt b <=? createdAt a)%Z.

(** World updates performed by the store requests. *)
Definition set_db (b : bool) (w : World) : World :=
  mkWorld (host w) (tick w) (uuidCtr w) (idbCtr w) (remoteLog w)
          b (notes w) (syncQueue w) (keyGen w).

Definition set_notes (m : gmap string Note) (w : World) : World :=
  mkWorld (host w) (tick w) (uuidCtr w) (idbCtr w) (remoteLog w)
          (db w) m (syncQueue w) (keyGen w).

Definition set_syncQueue (q : gmap Z SyncOperation) (g : Z) (w : World) : World :=
  mkWorld (host w) (tick w) (uuidCtr w) (idbCtr w) (remoteLog w)
          (db w) (notes w) q g.

(** Entering a store method: the host decides which fault, if any, hits
    this call. *)
Definition idb_enter : M IdbFault := fun w =>
  (Val (idbFault (host w) (idbCtr w)),
   mkWorld (host w) (tick w) (uuidCtr w) (S (idbCtr w)) (remoteLog w)
           (db w) (notes w) (syncQueue w) (keyGen w)).

(** The promise wrapped around an [IDBRequest]: [onerror] rejects it,
    [onsuccess] resolves it with the effect of the request. *)
Definition idb_request {A} (f : IdbFault) (onsuccess : M A) : M A :=
  match f with
  | RequestError => throw StorageError
  | _ => onsuccess
  end.

(** [db.transaction(...)], [objectStore(...)] and the call that issues the
    request run synchronously and may throw. *)
Definition idb_transaction (f : IdbFault) : M unit :=
  match f with
  | TransactionError => throw StorageError
  | _ => ret tt
  end.

Definition notes_put (note : Note) : M unit := fun w =>
  (Val tt, set_notes (<[id note := note]> (notes w)) w).

Definition notes_delete (i : string) : M unit := fun w =>
  (Val tt, set_notes (delete i (notes w)) w).

Definition notes_read : M (list Note) := fun w =>
  (Val (notes_getAll (notes w)), w).

Definition queue_read : M (list SyncOperation) := fun w =>
  (Val (queue_getAll (syncQueue w)), w).

Definition queue_clear : M unit := fun w =>
  (Val tt, set_syncQueue ∅ (keyGen w) w).

(** [store.put(operation)] on a store with keyPath 'id' and no key
    generator: the record replaces whatever is stored under its id. *)
Definition queue_put (key : Z) (op : SyncOperation) : M unit := fun w =>
  (Val tt,
   set_syncQueue (<[key := mkOp (Some key) (operation op) (timestamp op)]> (syncQueue w))
                 (keyGen w) w).

(** [store.add(operation)] on a store with keyPath 'id' and
    autoIncrement: a record without id gets the next generated key; a
    record that brings its own id is refused when the key is taken. *)
Definition queue_add (op : SyncOperation) : M unit := fun w =>
  match opId op with
  | None =>
      (Val tt,
       set_syncQueue (<[keyGen w := mkOp (Some (keyGen w)) (operation op) (timestamp op)]>
                        (syncQueue w))
                     (keyGen w + 1) w)
  | Some k =>
      match syncQueue w !! k with
      | Some _ => (Exn StorageError, w)
      | None => (Val tt, set_syncQueue (<[k := op]> (syncQueue w))
                                       (Z.max (keyGen w) (k + 1)) w)
      end
  end.

(** The interface every version of the local store exports as
    [indexedDBService]. *)
Module IndexedDB.
Class Service := {
  getAllNotes : M (list Note);
  saveNote : Note → M unit;
  deleteNote : string → M unit;
  addToSyncQueue : SyncOperation → M unit;
  getSyncQueue : M (list SyncOperation);
  clearSyncQueue : M unit
}.
End IndexedDB.

(** *** The store that caches its connection and keys the queue by time

    Each method runs [initDB] and issues its request inside [try]; the
    promise of the request is returned from inside the [try] without being
    awaited there, so a rejection of the request reaches the caller, while
    a failure to open the database or to start the transaction is caught
    and logged. *)
Module TimeKeyedStore.

Definition initDB (f : IdbFault) : M unit := fun w =>
  if db w then (Val tt, w)
  else match f with
       | OpenError => (Exn StorageError, w)
       | _ => (Val tt, set_db true w)
       end.

Definition getAllNotes : M (list Note) :=
  f <- idb_enter ;;
  promise <- try_catch
    (initDB f ;;
     idb_transaction f ;;
     ret (idb_request f (l <- notes_read ;; ret (js_sort newest_first l))))
    (fun _ => ret (ret [])) ;;
  promise.

Definition saveNote (note : Note) : M unit :=
  f <- idb_enter ;;
  promise <- try_catch
    (initDB f ;; idb_transaction f ;; ret (idb_request f (notes_put note)))
    (fun _ => ret (ret tt)) ;;
  promise.

Definition deleteNote (i : string) : M unit :=
  f <- idb_enter ;;
  promise <- try_catch
    (initDB f ;; idb_transaction f ;; ret (idb_request f (notes_delete i)))
    (fun _ => ret (ret tt)) ;;
  promise.

Definition addToSyncQueue (op : SyncOperation) : M unit :=
  f <- idb_enter ;;
  promise <- try_catch
    (initDB f ;;
     idb_transaction f ;;
     now <- Date_now ;;
     ret (idb_request f (queue_put now op)))
    (fun _ => ret (ret tt)) ;;
  promise.

Definition getSyncQueue : M (list SyncOperation) :=
  f <- idb_enter ;;
  promise <- try_catch
    (initDB f ;; idb_transaction f ;; ret (idb_request f queue_read))
    (fun _ => ret (ret [])) ;;
  promise.

Definition clearSyncQueue : M unit :=
  f <- idb_enter ;;
  promise <- try_catch
    (initDB f ;; idb_transaction f ;; ret (idb_request f queue_clear))
    (fun _ => ret (ret tt)) ;;
  promise.

Definition indexedDBService : IndexedDB.Service :=
  IndexedDB.Build_Service getAllNotes saveNote deleteNote
                          addToSyncQueue getSyncQueue clearSyncQueue.

End TimeKeyedStore.

(** *** The store that opens the database on every call and lets the
    queue generate its keys

    No method catches anything: a failed [init], a missing connection, a
    transaction that cannot be started and a failed request all reject the
    promise the caller awaits. *)
Module AutoIncrementStore.

Definition init (f : IdbFault) : M unit := fun w =>
  match f with
  | OpenError => (Exn StorageError, w)
  | _ => (Val tt, set_db true w)
  end.

Definition ensureDB : M unit := fun w =>
  if db w then (Val tt, w) else (Exn StorageError, w).

Definition getAllNotes : M (list Note) :=
  f <- idb_enter ;;
  init f ;; ensureDB ;; idb_transaction f ;;
  idb_request f (l <- notes_read ;; ret (js_sort newest_first l)).

Definition saveNote (note : Note) : M unit :=
  f <- idb_enter ;;
  init f ;; ensureDB ;; idb_transaction f ;;
  idb_request f (notes_put note).

Definition deleteNote (i : string) : M unit :=
  f <- idb_enter ;;
  init f ;; ensureDB ;; idb_transaction f ;;
  idb_request f (notes_delete i).

Definition addToSyncQueue (op : SyncOperation) : M unit :=
  f <- idb_enter ;;
  init f ;; ensureDB ;; idb_transaction f ;;
  idb_request f (queue_add op).

Definition getSyncQueue : M (list SyncOperation) :=
  f <- idb_enter ;;
  init f ;; ensureDB ;; idb_transaction f ;;
  idb_request f queue_read.

Definition clearSyncQueue : M unit :=
  f <- idb_enter ;;
  init f ;; ensureDB ;; idb_transaction f ;;
  idb_request f queue_clear.

Definition indexedDBService : IndexedDB.Service :=
  IndexedDB.Build_Service getAllNotes saveNote deleteNote
                          addToSyncQueue getSyncQueue clearSyncQueue.

End AutoIncrementStore.

(** ** The notes service (the version that carries [updatedAt]) *)

(** [new Map(localNotes.map(n => [n.id, n]))]: later entries win. *)
Definition js_Map (l : list Note) : gmap string Note :=
  foldl (fun m n => <[id n := n]> m) ∅ l.

Definition ask (f : Host → bool) : M bool := fun w => (Val (f (host w)), w).

Module NotesService.
Section WithStore.
Context {indexedDBService : IndexedDB.Service}.

(** One iteration of the push loop: the [switch] on [op.operation]. The
    row is built before the call is made, so a date that cannot be
    formatted throws before anything is sent. *)
Definition push (op : SyncOperation) : M unit :=
match operation op with
| OpCreate data =>
  created_at <- toISOString (createdAt data) ;;
  await_supabase (Insert (id data) (title data) (content data) (color data)
                         created_at) ;; ret tt
| OpUpdate data =>
  updated_at <- toISOString (updatedAt data) ;;
  await_supabase (Update (id data) (title data) (content data) (color data)
                         updated_at) ;; ret tt
| OpDelete data =>
  await_supabase (Delete data) ;; ret tt
end.

Definition syncToSupabase : M unit :=
configured <- ask isSupabaseConfigured ;;
online <- ask isOnline ;;
if negb configured || negb online then ret tt
else
try_catch
  (queue <- IndexedDB.getSyncQueue ;;
   for_of queue push ;;
   IndexedDB.clearSyncQueue)
  (fun _ => ret tt).

(** One iteration of the merge loop. *)
Definition merge (localMap : gmap string Note) (note : Note) : M unit :=
match localMap !! id note with
| None => IndexedDB.saveNote note
| Some local =>
  if (updatedAt note >? updatedAt local)%Z then IndexedDB.saveNote note
  else ret tt
end.

Definition syncFromSupabase : M unit :=
configured <- ask isSupabaseConfigured ;;
online <- ask isOnline ;;
if negb configured || negb online then ret tt
else
try_catch
  (response <- await_supabase SelectAll ;;
   (if response.2 : bool then throw RemoteError else ret tt) ;;
   let supabaseNotes := default [] response.1 in
   localNotes <- IndexedDB.getAllNotes ;;
   let localMap := js_Map localNotes in
   for_of supabaseNotes (merge localMap))
  (fun _ => ret tt).

Definition getAllNotes : M (list Note) :=
notes <- IndexedDB.getAllNotes ;;
configured <- ask isSupabaseConfigured ;;
online <- ask isOnline ;;
if configured && online then
syncToSupabase ;; syncFromSupabase ;; IndexedDB.getAllNotes
else ret notes.

(** The tail shared by the four mutations: try the remote call when
online, queue the operation when that throws or when offline, and do
neither when the remote is not configured. *)
Definition sync_or_queue (call : M unit) (queued : Operation) : M unit :=
configured <- ask isSupabaseConfigured ;;
online <- ask isOnline ;;
if configured && online then
try_catch call
  (fun _ =>
     t <- Date_now ;;
     IndexedDB.addToSyncQueue (mkOp None queued t))
else if configured then
t <- Date_now ;;
IndexedDB.addToSyncQueue (mkOp None queued t)
else ret tt.

Definition createNote (note : NoteInput) : M Note :=
i <- uuidv4 ;;
c <- Date_now ;;
u <- Date_now ;;
let newNote := mkNote i (in_title note) (in_content note) (in_color note) c u in
IndexedDB.saveNote newNote ;;
sync_or_queue
(await_supabase (Insert (id newNote) (title newNote) (content newNote)
                        (color newNote) (createdAt newNote)) ;; ret tt)
(OpCreate newNote) ;;
ret newNote.

Definition updateNote (i : string) (note : NoteInput) : M (option Note) :=
existingNotes <- IndexedDB.getAllNotes ;;
match find (fun n => bool_decide (id n = i)) existingNotes with
| None => ret None
| Some existingNote =>
  u <- Date_now ;;
  let updatedNote :=
    mkNote i (in_title note) (in_content note) (in_color note)
           (createdAt existingNote) u in
  IndexedDB.saveNote updatedNote ;;
  sync_or_queue
    (now <- Date_now ;;
     await_supabase (Update i (in_title note) (in_content note) (in_color note)
                            now) ;; ret tt)
    (OpUpdate updatedNote) ;;
  ret (Some updatedNote)
end.

Definition deleteNote (i : string) : M bool :=
IndexedDB.deleteNote i ;;
sync_or_queue (await_supabase (Delete i) ;; ret tt) (OpDelete i) ;;
ret true.

Definition updateNoteColor (i : string) (color' : string) : M bool :=
notes <- IndexedDB.getAllNotes ;;
match find (fun n => bool_decide (id n = i)) notes with
| None => ret false
| Some existingNote =>
  u <- Date_now ;;
  let updatedNote :=
    mkNote (id existingNote) (title existingNote) (content existingNote)
           color' (createdAt existingNote) u in
  IndexedDB.saveNote updatedNote ;;
  sync_or_queue
    (now <- Date_now ;;
     await_supabase (UpdateColor i color' now) ;; ret tt)
    (OpUpdate updatedNote) ;;
  ret true
end.

Definition syncPendingOperations : M unit :=
configured <- ask isSupabaseConfigured ;;
online <- ask isOnline ;;
if negb configured || negb online then ret tt
else syncToSupabase.

End WithStore.
End NotesService.

(** ** The earlier notes service (services/notesService.ts)

    This version predates [updatedAt]: its notes have one timestamp,
    [createdAt], which its updates overwrite. Its notes are embedded with
    [updatedAt] equal to that one timestamp. *)
Module EarlierNotesService.
Section WithStore.
Context {indexedDBService : IndexedDB.Service}.

Definition row (note : Note) : Note :=
mkNote (id note) (title note) (content note) (color note)
     (createdAt note) (createdAt note).

(** "Clear IndexedDB and save Supabase notes" *)
Definition syncFromSupabase : M unit :=
configured <- ask isSupabaseConfigured ;;
online <- ask isOnline ;;
if negb configured || negb online then ret tt
else
try_catch
  (response <- await_supabase SelectAll ;;
   (if response.2 : bool then throw RemoteError else ret tt) ;;
   let supabaseNotes := row <$> default [] response.1 in
   localNotes <- IndexedDB.getAllNotes ;;
   for_of localNotes (fun note => IndexedDB.deleteNote (id note)) ;;
   for_of supabaseNotes IndexedDB.saveNote)
  (fun _ => ret tt).

Definition updateNote (i : string) (note : NoteInput) : M (option Note) :=
now <- Date_now ;;
let updatedNote :=
mkNote i (in_title note) (in_content note) (in_color note) now now in
IndexedDB.saveNote updatedNote ;;
NotesService.sync_or_queue
(now' <- Date_now ;;
 await_supabase (Update i (in_title note) (in_content note) (in_color note)
                        now') ;; ret tt)
(OpUpdate updatedNote) ;;
ret (Some updatedNote).

End WithStore.
End EarlierNotesService.

(** ** The store kept in [localStorage] (class [LocalStorageService])

    Its methods are synchronous and catch every exception. *)
Module LocalStorageStore.

(** The two items the service keeps, 'keep-clone-notes' and
    'keep-clone-sync-queue'; an absent item is [None]. An item holds the
    JSON text of an array of plain records, and is modelled by the array
    that text parses to. *)
Record Storage := mkStorage {
  notesItem : option (list Note);
  syncQueueItem : option (list SyncOperation)
}.

(** Whether reading an item ([getItem] and [JSON.parse]) and writing one
    ([setItem], [removeItem]) throw during one method call. *)
Record Faults := mkFaults { read_throws : bool; write_throws : bool }.

Definition getAllNotes (f : Faults) (st : Storage) : list Note :=
  if read_throws f then []
  else js_sort newest_first (default [] (notesItem st)).

(** [notes.findIndex(n => n.id === i)] *)
Definition findIndex (i : string) (l : list Note) : option nat :=
  fst <$> list_find (fun n => id n = i) l.

Definition saveNote (f : Faults) (note : Note) (st : Storage) : Storage :=
  let notes := getAllNotes f st in
  let notes' := match findIndex (id note) notes with
                | Some existingIndex => <[existingIndex := note]> notes
                | None => notes ++ [note]
                end in
  if write_throws f then st
  else mkStorage (Some notes') (syncQueueItem st).

Definition deleteNote (f : Faults) (i : string) (st : Storage) : Storage :=
  let notes := filter (fun n => id n ≠ i) (getAllNotes f st) in
  if write_throws f then st
  else mkStorage (Some notes) (syncQueueItem st).

Definition getSyncQueue (f : Faults) (st : Storage) : list SyncOperation :=
  if read_throws f then [] else default [] (syncQueueItem st).

(** [now] is the reading of [Date.now()] that becomes the entry's id. *)
Definition addToSyncQueue (f : Faults) (now : Z) (op : SyncOperation)
    (st : Storage) : Storage :=
  let queue := getSyncQueue f st in
  let queue' := queue ++ [mkOp (Some now) (operation op) (timestamp op)] in
  if write_throws f then st
  else mkStorage (notesItem st) (Some queue').

Definition clearSyncQueue (f : Faults) (st : Storage) : Storage :=
  if write_throws f then st else mkStorage (notesItem st) None.

End LocalStorageStore.

(** * Vocabulary of the statements *)

(** A property of worlds that a computation keeps, whatever it returns or
    throws. *)
Definition preserves {A} (P : World → Prop) (m : M A) : Prop :=
  ∀ w, P w → P (m w).2.

(** A property that looks only at the host, the two object stores and the
    trace of remote calls. *)
Definition observes (P : World → Prop) : Prop :=
  ∀ w w', host w' = host w → notes w' = notes w → syncQueue w' = syncQueue w →
          remoteLog w' = remoteLog w → P w → P w'.

(** What [indexedDBService.getAllNotes()] resolves to when nothing fails. *)
Definition stored (m : gmap string Note) : list Note :=
  js_sort newest_first (notes_getAll m).

(** The object store 'notes' has keyPath 'id': every record sits under its
    own id. *)
Definition keyPath_ok (m : gmap string Note) : Prop :=
  map_Forall (fun k n => id n = k) m.

(** The fault that hits the next store call is one the time-keyed store
    catches and logs: the transaction cannot be started, or the database
    cannot be opened and no connection is cached. *)
Definition caught_in_store (w : World) : Prop :=
  idbFault (host w) (idbCtr w) = TransactionError
  ∨ (idbFault (host w) (idbCtr w) = OpenError ∧ db w = false).

(** No store method call is hit by a fault. *)
Definition no_faults (h : Host) : Prop := ∀ n, idbFault h n = NoFault.

(** The push loop can build the row of a queue entry: the date it
    formats is a time value. *)
Definition pushable (op : SyncOperation) : bool :=
  match operation op with
  | OpCreate data => valid_time (createdAt data)
  | OpUpdate data => valid_time (updatedAt data)
  | OpDelete _ => true
  end.

(** The Remote Adapter call that the push loop makes for a queue entry
    whose row it can build. *)
Definition call_of (op : SyncOperation) : RemoteCall :=
  match operation op with
  | OpCreate data =>
      Insert (id data) (title data) (content data) (color data) (createdAt data)
  | OpUpdate data =>
      Update (id data) (title data) (content data) (color data) (updatedAt data)
  | OpDelete data => Delete data
  end.

(** The note a queue entry is about. *)
Definition target (op : SyncOperation) : string :=
  match operation op with
  | OpCreate data => id data
  | OpUpdate data => id data
  | OpDelete data => data
  end.

(** The rows a pull started in [w] receives. *)
Definition fetched (w : World) : list Note :=
  match remote (host w) (length (remoteLog w)) with
  | Resolved (Some rows) false => rows
  | _ => []
  end.

(** The world after the Remote Adapter calls [cs] have been made. *)
Definition logged (cs : list RemoteCall) (w : World) : World :=
  mkWorld (host w) (tick w) (uuidCtr w) (idbCtr w) (remoteLog w ++ cs)
          (db w) (notes w) (syncQueue w) (keyGen w).

(** The world after a store method of either store has gone through
    without a fault: the call is counted and the connection is set. *)
Definition entered (w : World) : World :=
  mkWorld (host w) (tick w) (uuidCtr w) (S (idbCtr w)) (remoteLog w)
          true (notes w) (syncQueue w) (keyGen w).

(** The merge loop's test [!local || note.updatedAt > local.updatedAt]. *)
Definition adopts (localMap : gmap string Note) (note : Note) : bool :=
  match localMap !! id note with
  | None => true
  | Some local => (updatedAt note >? updatedAt local)%Z
  end.

(** The world after an operation has been put on the time-keyed queue. *)
Definition queued_at (key : Z) (queued : Operation) (t : Z) (w : World) : World :=
  set_syncQueue (<[key := mkOp (Some key) queued t]> (syncQueue w)) (keyGen w) w.

(** No queue entry is appended and no remote call is made. *)
Definition local_only {A} (m : M A) (w : World) : Prop :=
  syncQueue (exec m w) = syncQueue w ∧ remoteLog (exec m w) = remoteLog w.

(** Neither store is written and no remote call is made. *)
Definition untouched {A} (m : M A) (w : World) : Prop :=
  notes (exec m w) = notes w ∧ syncQueue (exec m w) = syncQueue w
  ∧ remoteLog (exec m w) = remoteLog w.

(** Every stored note has [updatedAt >= createdAt]. *)
Definition timestamps_ok (m : gmap string Note) : Prop :=
  map_Forall (fun _ n => (createdAt n ≤ updatedAt n)%Z) m.

(** The record [createNote] builds in world [w]. *)
Definition created (input : NoteInput) (w : World) : Note :=
  mkNote (uuids (host w) (uuidCtr w))
         (in_title input) (in_content input) (in_color input)
         (clock (host w) (tick w)) (clock (host w) (S (tick w))).

(** The queue entry an offline [createNote] leaves in world [w], and the
    key the time-keyed store files it under. *)
Definition create_key (w : World) : Z := clock (host w) (3 + tick w).

Definition create_entry (input : NoteInput) (w : World) : SyncOperation :=
  mkOp (Some (create_key w)) (OpCreate (created input w)) (clock (host w) (2 + tick w)).

(** The record [updateNote] builds in world [w] from the stored one. *)
Definition updated (i : string) (input : NoteInput) (existing : Note) (w : World) : Note :=
  mkNote i (in_title input) (in_content input) (in_color input)
         (createdAt existing) (clock (host w) (tick w)).

(** The record [updateNoteColor] builds in world [w] from the stored one. *)
Definition recolored (color' : string) (existing : Note) (w : World) : Note :=
  mkNote (id existing) (title existing) (content existing) color'
         (createdAt existing) (clock (host w) (tick w)).

(** The key generator of an autoIncrement queue is ahead of every key in
    use. *)
Definition keyGen_ahead (w : World) : Prop :=
  ∀ k, is_Some (syncQueue w !! k) → (k < keyGen w)%Z.

(** The order in which [getAllNotes] lists two notes: the one created later
    first, and of two notes created at the same time the one whose id
    comes first as a key of the store. *)
Definition display_order (a b : Note) : Prop :=
  (createdAt b < createdAt a)%Z
  ∨ (createdAt a = createdAt b ∧ key_order (id a) (id b)).

Definition id_order (a b : Note) : Prop := key_order (id a) (id b).

(** A computation that can fail only with a storage error. *)
Definition only_storage_errors {A} (m : M A) : Prop :=
  ∀ w e, eval m w = Exn e → e = StorageError.

(** Every note of [m] is still there in [m'], and not older. *)
Definition not_older (m m' : gmap string Note) : Prop :=
  ∀ i n, m !! i = Some n → ∃ n', m' !! i = Some n' ∧ (updatedAt n ≤ updatedAt n')%Z.

(** No call of the Web Storage API throws. *)
Definition storage_works : LocalStorageStore.Faults :=
  LocalStorageStore.mkFaults false false.

(** The 'keep-clone-notes' item holds at most one record per id. *)
Definition one_record_per_id (st : LocalStorageStore.Storage) : Prop :=
  NoDup (id <$> default [] (LocalStorageStore.notesItem st)).

(** ** Example worlds *)

Definition clock_from (t0 : Z) : nat → Z := fun n => (t0 + Z.of_nat n)%Z.

Definition example_uuids (n : nat) : string :=
  match n with
  | O => "3f2a"
  | S O => "9c41"
  | _ => "e07b"
  end.

Definition example_host (configured online : bool) (clk : nat → Z)
    (answers : nat → Awaited) (faults : nat → IdbFault) : Host :=
  mkHost (if configured then "https://notes.supabase.co" else "")
         (if configured then "anon-key" else "")
         online clk example_uuids answers faults.

Definition example_world (h : Host) (opened : bool) (m : gmap string Note)
    (q : gmap Z SyncOperation) : World :=
  mkWorld h 0 0 0 [] opened m q 1.

Definition note_a : Note := mkNote "a" "shopping" "milk" "yellow" 100 100.
Definition note_b : Note := mkNote "b" "travel" "tickets" "blue" 120 120.
Definition remote_a_newer : Note := mkNote "a" "shopping" "milk, eggs" "yellow" 100 150.
Definition remote_b_older : Note := mkNote "b" "travel" "" "blue" 120 90.
Definition remote_skewed : Note := mkNote "c" "late" "" "red" 200 100.
Definition input_x : NoteInput := mkInput "x" "" "white".

(** Online, with a remote that answers every call with two rows. *)
Definition world_online : World :=
  example_world
    (example_host true true (clock_from 1000)
       (fun _ => Resolved (Some [remote_a_newer; remote_b_older]) false)
       (fun _ => NoFault))
    true {[ "a" := note_a; "b" := note_b ]} ∅.

(** Online with two queued operations, the remote rejecting every call. *)
Definition world_unreachable : World :=
  example_world
    (example_host true true (clock_from 1000) (fun _ => Rejected) (fun _ => NoFault))
    true {[ "a" := note_a ]}
    {[ 1%Z := mkOp (Some 1%Z) (OpCreate note_a) 100;
       2%Z := mkOp (Some 2%Z) (OpDelete "b") 130 ]}.

(** Offline, remote configured. *)
Definition world_offline : World :=
  example_world
    (example_host true false (clock_from 1000) (fun _ => Rejected) (fun _ => NoFault))
    true ∅ ∅.

(** Offline, and every reading of the clock falls in the same millisecond. *)
Definition world_same_millisecond : World :=
  example_world
    (example_host true false (fun _ => 1000%Z) (fun _ => Rejected) (fun _ => NoFault))
    true ∅ ∅.

(** Offline, and the clock is set back by half a second after its fourth
    reading. *)
Definition world_clock_stepped_back : World :=
  example_world
    (example_host true false
       (fun n => if (n <? 4)%nat then clock_from 1000 n else clock_from 500 n)
       (fun _ => Rejected) (fun _ => NoFault))
    true ∅ ∅.

(** No remote configured. *)
Definition world_local : World :=
  example_world
    (example_host false true (clock_from 1000) (fun _ => Rejected) (fun _ => NoFault))
    true {[ "a" := note_a ]} ∅.

(** No remote configured, and the clock has been set back to before the
    creation of the stored note. *)
Definition world_clock_set_back : World :=
  example_world
    (example_host false true (clock_from 50) (fun _ => Rejected) (fun _ => NoFault))
    true {[ "a" := note_a ]} ∅.

(** Online, the remote holding a row whose [updated_at] precedes its
    [created_at]. *)
Definition world_skewed_row : World :=
  example_world
    (example_host true true (clock_from 1000)
       (fun _ => Resolved (Some [remote_skewed]) false) (fun _ => NoFault))
    true ∅ ∅.

(** No remote configured, and the database cannot be opened. *)
Definition world_no_database : World :=
  example_world
    (example_host false true (clock_from 1000) (fun _ => Rejected) (fun _ => OpenError))
    false ∅ ∅.

(** Online, the store holding a note the remote does not have. *)
Definition world_local_only_note : World :=
  example_world
    (example_host true true (clock_from 1000)
       (fun _ => Resolved (Some [remote_a_newer]) false) (fun _ => NoFault))
    true {[ "a" := note_a; "b" := note_b ]} ∅.

(** Online with two queued operations; the remote answers the first call
    with an error and the later ones without. *)
Definition world_first_call_refused : World :=
  example_world
    (example_host true true (clock_from 1000)
       (fun n => match n with
                 | O => Resolved None true
                 | _ => Resolved None false
                 end)
       (fun _ => NoFault))
    true {[ "a" := note_a ]}
    {[ 1%Z := mkOp (Some 1%Z) (OpCreate note_a) 100;
       2%Z := mkOp (Some 2%Z) (OpDelete "b") 130 ]}.

(** Online with two queued operations, the remote answering every call
    with an error. *)
Definition world_remote_refuses : World :=
  example_world
    (example_host true true (clock_from 1000)
       (fun _ => Resolved None true) (fun _ => NoFault))
    true {[ "a" := note_a ]}
    {[ 1%Z := mkOp (Some 1%Z) (OpCreate note_a) 100;
       2%Z := mkOp (Some 2%Z) (OpDelete "b") 130 ]}.

(** Online with two queued operations; the transaction of the first store
    call cannot be started. *)
Definition world_queue_unreadable : World :=
  example_world
    (example_host true true (clock_from 1000)
       (fun _ => Resolved None false)
       (fun n => match n with
                 | O => TransactionError
                 | _ => NoFault
                 end))
    true {[ "a" := note_a ]}
    {[ 1%Z := mkOp (Some 1%Z) (OpCreate note_a) 100;
       2%Z := mkOp (Some 2%Z) (OpDelete "b") 130 ]}.

(** Back online with two operations in the queue, the remote answering
    every call. *)
Definition world_reconnected : World :=
  example_world
    (example_host true true (clock_from 1000)
       (fun _ => Resolved (Some [remote_a_newer]) false) (fun _ => NoFault))
    true {[ "a" := note_a ]}
    {[ 1%Z := mkOp (Some 1%Z) (OpCreate note_a) 100;
       2%Z := mkOp (Some 2%Z) (OpDelete "b") 130 ]}.

(** A [localStorage] holding two notes and no queue. *)
Definition example_storage : LocalStorageStore.Storage :=
  LocalStorageStore.mkStorage (Some [note_a; note_b]) None.

(** * Properties *)

(** ** The monad *)

Lemma bind_val {A B} (m : M A) (k : A → M B) w a w' :
  m w = (Val a, w') → bind m k w = k a w'.
Proof. intros E. unfold bind. by rewrite E. Qed.

Lemma bind_exn {A B} (m : M A) (k : A → M B) w e w' :
  m w = (Exn e, w') → bind m k w = (Exn e, w').
Proof. intros E. unfold bind. by rewrite E. Qed.

Lemma preserves_ret {A} P (a : A) : preserves P (ret a).
Proof. by intros w. Qed.

Lemma preserves_throw {A} P e : preserves P (@throw A e).
Proof. by intros w. Qed.

Lemma preserves_bind {A B} P (m : M A) (k : A → M B) :
  preserves P m → (∀ a, preserves P (k a)) → preserves P (bind m k).
Proof.
  intros Hm Hk w Hw. unfold bind.
  specialize (Hm w Hw). destruct (m w) as [[a|e] w1]; simpl in *; [|done].
  by apply Hk.
Qed.

Lemma preserves_try_catch {A} P (m : M A) h :
  preserves P m → (∀ e, preserves P (h e)) → preserves P (try_catch m h).
Proof.
  intros Hm Hh w Hw. unfold try_catch.
  specialize (Hm w Hw). destruct (m w) as [[a|e] w1]; simpl in *; [done|].
  by apply Hh.
Qed.

Lemma preserves_for_of {A} P (l : list A) body :
  (∀ x, x ∈ l → preserves P (body x)) → preserves P (for_of l body).
Proof.
  induction l as [|x l IH]; intros Hb; simpl.
  - apply preserves_ret.
  - apply preserves_bind.
    + apply Hb. by left.
    + intros _. apply IH. intros y Hy. apply Hb. by right.
Qed.

Lemma preserves_if {A} P (b : bool) (m1 m2 : M A) :
  preserves P m1 → preserves P m2 → preserves P (if b then m1 else m2).
Proof. by destruct b. Qed.

Lemma preserves_ask P f : preserves P (ask f).
Proof. by intros w. Qed.

(** A property that looks only at the host, the stores and the trace is
    kept by the clock, the identifier source and the entry into a store
    method. *)
Lemma preserves_Date_now P : observes P → preserves P Date_now.
Proof. intros HP w Hw. by apply (HP w). Qed.

Lemma preserves_uuidv4 P : observes P → preserves P uuidv4.
Proof. intros HP w Hw. by apply (HP w). Qed.

Lemma preserves_idb_enter P : observes P → preserves P idb_enter.
Proof. intros HP w Hw. by apply (HP w). Qed.

Lemma preserves_set_db P b w : observes P → P w → P (set_db b w).
Proof. intros HP Hw. by apply (HP w). Qed.

Lemma preserves_idb_request {A} P f (m : M A) :
  preserves P m → preserves P (idb_request f m).
Proof. intros Hm. destruct f; simpl; auto using preserves_throw. Qed.

(** ** The time-keyed store *)

Ltac run_store :=
  unfold bind, try_catch, ret, throw, idb_enter, TimeKeyedStore.initDB,
    idb_transaction, idb_request, notes_put, notes_delete, notes_read, queue_read, queue_clear,
    queue_put, Date_now; simpl.

Section TimeKeyedFrame.
Import TimeKeyedStore.
Variable P : World → Prop.
Hypothesis HP : observes P.

Lemma TK_getAllNotes_preserves : preserves P getAllNotes.
Proof.
  intros w Hw. unfold getAllNotes. run_store.
  destruct (db w) eqn:Hdb, (idbFault (host w) (idbCtr w)); simpl;
    by apply (HP w).
Qed.

Lemma TK_getSyncQueue_preserves : preserves P getSyncQueue.
Proof.
  intros w Hw. unfold getSyncQueue. run_store.
  destruct (db w) eqn:Hdb, (idbFault (host w) (idbCtr w)); simpl;
    by apply (HP w).
Qed.

Lemma TK_saveNote_preserves note :
  (∀ w, P w → P (set_notes (<[id note := note]> (notes w)) w)) →
  preserves P (saveNote note).
Proof.
  intros Hput w Hw. unfold saveNote. run_store.
  destruct (db w) eqn:Hdb, (idbFault (host w) (idbCtr w)); simpl;
    try (by apply (HP w));
    by apply (HP (set_notes (<[id note := note]> (notes w)) w)); auto.
Qed.

Lemma TK_deleteNote_preserves i :
  (∀ w, P w → P (set_notes (delete i (notes w)) w)) →
  preserves P (deleteNote i).
Proof.
  intros Hdel w Hw. unfold deleteNote. run_store.
  destruct (db w) eqn:Hdb, (idbFault (host w) (idbCtr w)); simpl;
    try (by apply (HP w));
    by apply (HP (set_notes (delete i (notes w)) w)); auto.
Qed.

Lemma TK_addToSyncQueue_preserves op :
  (∀ w key, P w →
     P (set_syncQueue (<[key := mkOp (Some key) (operation op) (timestamp op)]>
                         (syncQueue w)) (keyGen w) w)) →
  preserves P (addToSyncQueue op).
Proof.
  intros Hput w Hw. unfold addToSyncQueue. run_store.
  destruct (db w) eqn:Hdb, (idbFault (host w) (idbCtr w)); simpl;
    try (by apply (HP w));
    (eapply HP; [| | | |apply (Hput w (clock (host w) (tick w)) Hw)]; done).
Qed.

Lemma TK_clearSyncQueue_preserves :
  (∀ w, P w → P (set_syncQueue ∅ (keyGen w) w)) →
  preserves P clearSyncQueue.
Proof.
  intros Hclr w Hw. unfold clearSyncQueue. run_store.
  destruct (db w) eqn:Hdb, (idbFault (host w) (idbCtr w)); simpl;
    try (by apply (HP w));
    by apply (HP (set_syncQueue ∅ (keyGen w) w)); auto.
Qed.

Lemma await_supabase_preserves c :
  (∀ w, P w → P (logged [c] w)) → preserves P (await_supabase c).
Proof.
  intros Hlog w Hw. unfold await_supabase.
  destruct (remote (host w) (length (remoteLog w))); simpl; by apply Hlog.
Qed.
End TimeKeyedFrame.

(** What the methods do when no fault hits the call. *)
Section TimeKeyedValues.
Import TimeKeyedStore.
Variable w : World.
Hypothesis Hok : idbFault (host w) (idbCtr w) = NoFault.

Lemma TK_getAllNotes_ok :
  getAllNotes w = (Val (js_sort newest_first (notes_getAll (notes w))), entered w).
Proof.
  unfold getAllNotes. run_store. rewrite Hok. by destruct (db w).
Qed.

Lemma TK_saveNote_ok note :
  saveNote note w = (Val tt, set_notes (<[id note := note]> (notes w)) (entered w)).
Proof.
  unfold saveNote. run_store. rewrite Hok. by destruct (db w).
Qed.

Lemma TK_deleteNote_ok i :
  deleteNote i w = (Val tt, set_notes (delete i (notes w)) (entered w)).
Proof.
  unfold deleteNote. run_store. rewrite Hok. by destruct (db w).
Qed.

Lemma TK_getSyncQueue_ok :
  getSyncQueue w = (Val (queue_getAll (syncQueue w)), entered w).
Proof.
  unfold getSyncQueue. run_store. rewrite Hok. by destruct (db w).
Qed.

Lemma TK_clearSyncQueue_ok :
  clearSyncQueue w = (Val tt, set_syncQueue ∅ (keyGen w) (entered w)).
Proof.
  unfold clearSyncQueue. run_store. rewrite Hok. by destruct (db w).
Qed.

Lemma TK_addToSyncQueue_ok op :
  addToSyncQueue op w =
  (Val tt,
   let key := clock (host w) (tick w) in
   set_syncQueue (<[key := mkOp (Some key) (operation op) (timestamp op)]> (syncQueue w))
                 (keyGen w) (Date_now (entered w)).2).
Proof.
  unfold addToSyncQueue. run_store. rewrite Hok. by destruct (db w).
Qed.
End TimeKeyedValues.

(** ** Reading the 'notes' store *)

Lemma sort_insert_perm {A} (before : A → A → bool) x l :
  sort_insert before x l ≡ₚ x :: l.
Proof.
  induction l as [|y l IH]; simpl; [done|].
  destruct (before x y); [done|].
  rewrite IH. apply Permutation_swap.
Qed.

Lemma js_sort_perm {A} (before : A → A → bool) l : js_sort before l ≡ₚ l.
Proof.
  induction l as [|x l IH]; simpl; [done|].
  by rewrite sort_insert_perm, IH.
Qed.

Lemma notes_getAll_perm m : notes_getAll m ≡ₚ (map_to_list m).*2.
Proof. unfold notes_getAll. by rewrite merge_sort_Permutation. Qed.

Lemma queue_entries_perm q : queue_entries q ≡ₚ map_to_list q.
Proof. apply merge_sort_Permutation. Qed.

Lemma queue_getAll_perm q : queue_getAll q ≡ₚ (map_to_list q).*2.
Proof. unfold queue_getAll. by rewrite queue_entries_perm. Qed.

Global Instance key_le_trans : Transitive key_le.
Proof. intros a b c. unfold key_le. lia. Qed.

Global Instance key_le_total : Total key_le.
Proof. intros a b. unfold key_le. lia. Qed.

(** [getAll()] on the queue lists the entries by ascending key. *)
Lemma queue_entries_sorted q : StronglySorted key_le (queue_entries q).
Proof. apply StronglySorted_merge_sort; apply _. Qed.

(** What [indexedDBService.getAllNotes()] resolves to. *)
Section StoredNotes.
Variable m : gmap string Note.

Lemma stored_perm : stored m ≡ₚ (map_to_list m).*2.
Proof. unfold stored. by rewrite js_sort_perm, notes_getAll_perm. Qed.

Lemma elem_of_stored n : n ∈ stored m ↔ ∃ k, m !! k = Some n.
Proof.
  rewrite stored_perm, list_elem_of_fmap. split.
  - intros [[k n'] [-> Hin]]. exists k. by apply elem_of_map_to_list.
  - intros [k Hk]. exists (k, n). split; [done|]. by apply elem_of_map_to_list.
Qed.

Hypothesis Hkey : keyPath_ok m.

Lemma stored_ids_NoDup : NoDup (id <$> stored m).
Proof.
  rewrite stored_perm.
  assert (id <$> (map_to_list m).*2 = (map_to_list m).*1) as ->.
  { rewrite <- list_fmap_compose. apply list_fmap_ext.
    intros j [k n] Hj. simpl. apply (Hkey k n).
    apply elem_of_map_to_list. eapply list_elem_of_lookup_2. exact Hj. }
  apply NoDup_fst_map_to_list.
Qed.

Lemma stored_lookup i n : (n ∈ stored m ∧ id n = i) ↔ m !! i = Some n.
Proof.
  rewrite elem_of_stored. split.
  - intros [[k Hk] <-]. by rewrite (Hkey k n Hk).
  - intros Hi. split; [by exists i|]. by apply (Hkey i n).
Qed.
End StoredNotes.

Lemma find_by_id (l : list Note) i n :
  NoDup (id <$> l) →
  find (fun n => bool_decide (id n = i)) l = Some n ↔ n ∈ l ∧ id n = i.
Proof.
  induction l as [|x l IH]; simpl; intros Hnd.
  - split; [done|]. intros [H _]. by apply elem_of_nil in H.
  - apply NoDup_cons in Hnd as [Hx Hnd]. case_bool_decide as Hxi.
    + split.
      * intros [= ->]. split; [by left|done].
      * intros [Hin Hid]. apply elem_of_cons in Hin as [->|Hin]; [done|].
        exfalso. apply Hx. rewrite Hxi, <- Hid. by apply list_elem_of_fmap_2.
    + rewrite (IH Hnd). split.
      * intros [Hin Hid]. split; [by right|done].
      * intros [Hin Hid]. apply elem_of_cons in Hin as [->|Hin]; done.
Qed.

Lemma find_stored m i :
  keyPath_ok m →
  find (fun n => bool_decide (id n = i)) (js_sort newest_first (notes_getAll m))
  = m !! i.
Proof.
  intros Hkey. apply option_eq. intros n.
  rewrite find_by_id by by apply stored_ids_NoDup.
  by apply stored_lookup.
Qed.

Lemma foldl_insert_lookup (l : list Note) (m0 : gmap string Note) i n :
  NoDup (id <$> l) →
  (foldl (fun m n => (<[id n := n]> m)) m0 l !! i = Some n)
  ↔ ((n ∈ l ∧ id n = i) ∨ ((i ∉ id <$> l) ∧ m0 !! i = Some n)).
Proof.
  revert m0. induction l as [|x l IH]; simpl; intros m0 Hnd.
  - split.
    + intros H. right. split; [apply not_elem_of_nil|done].
    + intros [[H _]|[_ H]]; [by apply elem_of_nil in H|done].
  - apply NoDup_cons in Hnd as [Hx Hnd]. rewrite (IH _ Hnd).
    rewrite not_elem_of_cons, !elem_of_cons. split.
    + intros [[Hin Hid]|[Hni Hlk]]; [left; auto|].
      destruct (decide (id x = i)) as [Hxi|Hxi].
      * rewrite Hxi, lookup_insert_eq in Hlk. injection Hlk as ->. left; auto.
      * rewrite lookup_insert_ne in Hlk by done. right; auto.
    + intros [[[->|Hin] Hid]|[[Hne Hni] Hlk]].
      * right. split; [by rewrite <- Hid|]. by rewrite Hid, lookup_insert_eq.
      * left; auto.
      * right. split; [done|]. by rewrite lookup_insert_ne.
Qed.

Lemma js_Map_stored m :
  keyPath_ok m → js_Map (js_sort newest_first (notes_getAll m)) = m.
Proof.
  intros Hkey. apply map_eq. intros i. apply option_eq. intros n.
  unfold js_Map. rewrite foldl_insert_lookup by by apply stored_ids_NoDup.
  rewrite lookup_empty, <- (stored_lookup m Hkey).
  split; [intros [H|[_ H]]; done | by left].
Qed.

Lemma keyPath_ok_insert m note :
  keyPath_ok m → keyPath_ok (<[id note := note]> m).
Proof. intros H. by apply map_Forall_insert_2. Qed.

Lemma keyPath_ok_delete m i : keyPath_ok m → keyPath_ok (delete i m).
Proof. intros H. by apply map_Forall_delete. Qed.

(** ** Running the service step by step *)

Lemma bind_ask {A} f (k : bool → M A) w : bind (ask f) k w = k (f (host w)) w.
Proof. reflexivity. Qed.

Lemma bind_ret {A B} (a : A) (k : A → M B) w : bind (ret a) k w = k a w.
Proof. reflexivity. Qed.

Lemma exec_bind_ask {A} f (k : bool → M A) w :
  exec (bind (ask f) k) w = exec (k (f (host w))) w.
Proof. reflexivity. Qed.

Lemma exec_bind_ret {A B} (a : A) (k : A → M B) w :
  exec (bind (ret a) k) w = exec (k a) w.
Proof. reflexivity. Qed.

Lemma exec_try_catch_ret {A} (m : M A) (a : A) w :
  exec (try_catch m (fun _ => ret a)) w = exec m w.
Proof. unfold exec, try_catch, ret. by destruct (m w) as [[?|?] ?]. Qed.

Lemma exec_bind_await {A} c (k : option (list Note) * bool → M A) w :
  exec (bind (await_supabase c) k) w =
  match remote (host w) (length (remoteLog w)) with
  | Rejected => logged [c] w
  | Resolved data error => exec (k (data, error)) (logged [c] w)
  end.
Proof.
  unfold exec, bind, await_supabase.
  by destruct (remote (host w) (length (remoteLog w))).
Qed.

Lemma exec_preserves {A} P (m : M A) w : preserves P m → P w → P (exec m w).
Proof. intros Hm Hw. by apply Hm. Qed.

Lemma exec_bind_val {A B} (m : M A) (k : A → M B) w a w' :
  m w = (Val a, w') → exec (bind m k) w = exec (k a) w'.
Proof. intros E. unfold exec. by rewrite (bind_val _ _ _ _ _ E). Qed.

Lemma exec_bind_uuidv4 {A} (k : string → M A) w :
  exec (bind uuidv4 k) w = exec (k (uuids (host w) (uuidCtr w))) (uuidv4 w).2.
Proof. reflexivity. Qed.

Lemma exec_bind_Date_now {A} (k : Z → M A) w :
  exec (bind Date_now k) w = exec (k (clock (host w) (tick w))) (Date_now w).2.
Proof. reflexivity. Qed.

Lemma bind_uuidv4 {A} (k : string → M A) w :
  bind uuidv4 k w = k (uuids (host w) (uuidCtr w)) (uuidv4 w).2.
Proof. reflexivity. Qed.

Lemma bind_Date_now {A} (k : Z → M A) w :
  bind Date_now k w = k (clock (host w) (tick w)) (Date_now w).2.
Proof. reflexivity. Qed.

(** ** The service over the time-keyed store *)

Section TimeKeyedApp.
Local Existing Instance TimeKeyedStore.indexedDBService.
Import NotesService.

(** One merge step touches at most the record of the row it looks at. *)
Lemma merge_preserves_other localMap note k v :
  id note ≠ k →
  preserves (fun w => notes w !! k = v) (merge localMap note).
Proof.
  intros Hne. unfold merge.
  assert (preserves (fun w => notes w !! k = v) (IndexedDB.saveNote note)) as Hsave.
  { apply TK_saveNote_preserves.
    - intros w w' _ Hn _ _. by rewrite Hn.
    - intros w Hw. simpl. by rewrite lookup_insert_ne. }
  destruct (localMap !! id note) as [local|]; [|done].
  destruct (updatedAt note >? updatedAt local)%Z; [done|apply preserves_ret].
Qed.

(** *** Push *)

Lemma preserves_toISOString P t : preserves P (toISOString t).
Proof. intros w Hw. unfold toISOString. by destruct (valid_time t). Qed.

Lemma toISOString_valid t w : valid_time t = true → toISOString t w = (Val t, w).
Proof. intros Hv. unfold toISOString. by rewrite Hv. Qed.

Lemma toISOString_invalid t w :
  valid_time t = false → toISOString t w = (Exn RangeError, w).
Proof. intros Hv. unfold toISOString. by rewrite Hv. Qed.

Lemma push_call_of op w :
  pushable op = true → push op w = (await_supabase (call_of op) ;; ret tt) w.
Proof.
  unfold push, call_of, pushable. destruct (operation op) as [data|data|i];
    intros Hv; [| |done];
    by rewrite (bind_val _ _ _ _ _ (toISOString_valid _ w Hv)).
Qed.

(** An entry whose date cannot be formatted stops the loop before any
    call is made for it. *)
Lemma push_invalid_date op w :
  pushable op = false → push op w = (Exn RangeError, w).
Proof.
  unfold push, pushable. destruct (operation op) as [data|data|i];
    intros Hv; [| |done];
    by rewrite (bind_exn _ _ _ _ _ (toISOString_invalid _ w Hv)).
Qed.

Lemma logged_nil w : logged [] w = w.
Proof. destruct w. unfold logged. simpl. by rewrite app_nil_r. Qed.

Lemma logged_cons c cs w : logged cs (logged [c] w) = logged (c :: cs) w.
Proof. unfold logged. simpl. by rewrite <- app_assoc. Qed.

Lemma push_resolved op w :
  pushable op = true →
  remote (host w) (length (remoteLog w)) ≠ Rejected →
  push op w = (Val tt, logged [call_of op] w).
Proof.
  intros Hv Hok. rewrite push_call_of by done. unfold bind, await_supabase.
  by destruct (remote (host w) (length (remoteLog w))).
Qed.

Lemma push_rejected op w :
  pushable op = true →
  remote (host w) (length (remoteLog w)) = Rejected →
  push op w = (Exn RemoteError, logged [call_of op] w).
Proof.
  intros Hv Hrej. rewrite push_call_of by done. unfold bind, await_supabase.
  by rewrite Hrej.
Qed.

(** The drain stops at the first rejected call: the calls made are those
    of the entries up to and including that one, in list order. *)
Lemma drain_rejected queue :
  ∀ w k,
    (k < length queue)%nat →
    Forall (fun op => pushable op = true) (take (S k) queue) →
    (∀ j, (j < k)%nat → remote (host w) (length (remoteLog w) + j) ≠ Rejected) →
    remote (host w) (length (remoteLog w) + k) = Rejected →
    for_of queue push w =
    (Exn RemoteError, logged (call_of <$> take (S k) queue) w).
Proof.
  induction queue as [|op queue IH]; intros w k Hk Hv Hbefore Hrej; simpl in Hk.
  { lia. }
  simpl for_of. rewrite firstn_cons in Hv. apply Forall_cons in Hv as [Hop Hv].
  destruct k as [|k].
  - rewrite Nat.add_0_r in Hrej.
    by rewrite (bind_exn _ _ _ _ _ (push_rejected op w Hop Hrej)).
  - assert (remote (host w) (length (remoteLog w)) ≠ Rejected) as H0.
    { specialize (Hbefore 0%nat). rewrite Nat.add_0_r in Hbefore.
      apply Hbefore. lia. }
    rewrite (bind_val _ _ _ _ _ (push_resolved op w Hop H0)).
    rewrite (IH (logged [call_of op] w) k).
    + by rewrite logged_cons.
    + lia.
    + done.
    + intros j Hj. simpl. rewrite length_app. simpl.
      replace (length (remoteLog w) + 1 + j)%nat
        with (length (remoteLog w) + S j)%nat by lia.
      apply Hbefore. lia.
    + simpl. rewrite length_app. simpl.
      by replace (length (remoteLog w) + 1 + k)%nat
        with (length (remoteLog w) + S k)%nat by lia.
Qed.

(** When the awaited call for entry [k] is the first to throw, the calls
    made in that cycle are those of the entries up to [k], in the order of
    the queue, and the sync queue is left as it was. *)
Lemma push_stops_at_first_rejection (w : World) (k : nat) :
  isSupabaseConfigured (host w) = true →
  isOnline (host w) = true →
  idbFault (host w) (idbCtr w) = NoFault →
  (k < length (queue_getAll (syncQueue w)))%nat →
  Forall (fun op => pushable op = true) (take (S k) (queue_getAll (syncQueue w))) →
  (∀ j, (j < k)%nat → remote (host w) (length (remoteLog w) + j) ≠ Rejected) →
  remote (host w) (length (remoteLog w) + k) = Rejected →
  remoteLog (exec syncToSupabase w) =
  remoteLog w ++ (call_of <$> take (S k) (queue_getAll (syncQueue w)))
  ∧ syncQueue (exec syncToSupabase w) = syncQueue w.
Proof.
  intros Hcfg Hon Hok Hk Hv Hbefore Hrej.
  unfold syncToSupabase. rewrite !exec_bind_ask, Hcfg, Hon. simpl.
  rewrite exec_try_catch_ret. unfold exec.
  rewrite (bind_val _ _ _ _ _ (TK_getSyncQueue_ok w Hok)).
  rewrite (bind_exn _ _ _ _ _
             (drain_rejected (queue_getAll (syncQueue w)) (entered w) k
                             Hk Hv Hbefore Hrej)).
  done.
Qed.

(** C3, at the failing input: two operations are queued and the remote
    answers the first call with an error (the promise resolves to
    [{ data: null, error }]) and the second without one. The loop does not
    look at what the call resolves to: it goes on to the second entry and
    then clears the queue, so the create that failed is dropped instead of
    being kept for the next cycle. *)
Theorem push_continues_after_error_response :
  remote (host world_first_call_refused) 0 = Resolved None true
  ∧ queue_getAll (syncQueue world_first_call_refused)
    = [mkOp (Some 1) (OpCreate note_a) 100; mkOp (Some 2) (OpDelete "b") 130]
  ∧ remoteLog (exec syncToSupabase world_first_call_refused)
    = [Insert "a" "shopping" "milk" "yellow" 100; Delete "b"]
  ∧ syncQueue (exec syncToSupabase world_first_call_refused) = ∅.
Proof. repeat split; vm_compute; reflexivity. Qed.

(** The drain itself never writes to the sync queue. *)
Lemma drain_keeps_queue queue w :
  syncQueue (exec (for_of queue push) w) = syncQueue w.
Proof.
  apply (exec_preserves (fun w' => syncQueue w' = syncQueue w)); [|done].
  apply preserves_for_of. intros op _. unfold push.
  destruct (operation op) as [data|data|i].
  - apply preserves_bind; [apply preserves_toISOString|]. intros t.
    apply preserves_bind; [|intros; apply preserves_ret].
    apply await_supabase_preserves. by intros w1 Hw1.
  - apply preserves_bind; [apply preserves_toISOString|]. intros t.
    apply preserves_bind; [|intros; apply preserves_ret].
    apply await_supabase_preserves. by intros w1 Hw1.
  - apply preserves_bind; [|intros; apply preserves_ret].
    apply await_supabase_preserves. by intros w1 Hw1.
Qed.

(** C4, at the failing inputs: two operations are queued. In the first
    world the remote answers every call with an error: no operation is
    applied remotely, yet the queue is emptied. In the second the
    transaction of the read of the queue cannot be started: the store
    catches that and gives the empty list, the loop has nothing to push,
    and the clear that follows empties the queue without one remote call
    having been made. *)
Theorem queue_cleared_without_confirmation :
  ((∀ n, remote (host world_remote_refuses) n = Resolved None true)
   ∧ length (queue_getAll (syncQueue world_remote_refuses)) = 2%nat
   ∧ syncQueue (exec syncToSupabase world_remote_refuses) = ∅)
  ∧ (idbFault (host world_queue_unreadable) (idbCtr world_queue_unreadable)
     = TransactionError
     ∧ length (queue_getAll (syncQueue world_queue_unreadable)) = 2%nat
     ∧ remoteLog (exec syncToSupabase world_queue_unreadable) = []
     ∧ syncQueue (exec syncToSupabase world_queue_unreadable) = ∅).
Proof. repeat split; vm_compute; reflexivity. Qed.

(** *** Pull *)

(** The pull and merge of this version never deletes a local record:
    whatever the local store holds, whatever the remote answers and
    whatever faults hit the store, a record whose id is not among the
    fetched rows is found unchanged after [syncFromSupabase]. *)
Lemma pull_never_deletes (w : World) (k : string) :
  k ∉ id <$> fetched w →
  notes (exec syncFromSupabase w) !! k = notes w !! k.
Proof.
  intros Hk. unfold syncFromSupabase. rewrite !exec_bind_ask.
  destruct (negb _ || negb _); [done|].
  rewrite exec_try_catch_ret, exec_bind_await.
  unfold fetched in Hk.
  destruct (remote (host w) (length (remoteLog w))) as [|data error]; [done|].
  simpl. destruct error; [done|]. rewrite exec_bind_ret.
  apply (exec_preserves (fun w' => notes w' !! k = notes w !! k)); [|done].
  apply preserves_bind.
  - apply TK_getAllNotes_preserves. intros w1 w2 _ Hn _ _. by rewrite Hn.
  - intros localNotes. apply preserves_for_of. intros note Hnote.
    apply merge_preserves_other. intros <-. apply Hk.
    destruct data as [rows|]; simpl in Hnote.
    + by apply list_elem_of_fmap_2.
    + by apply elem_of_nil in Hnote.
Qed.

(** When no fault hits the store, one merge step saves the row or leaves
    the store alone, as [adopts] says. *)
Lemma merge_ok localMap note w :
  no_faults (host w) →
  merge localMap note w =
  (Val tt,
   if adopts localMap note
   then set_notes (<[id note := note]> (notes w)) (entered w)
   else w).
Proof.
  intros Hnf. unfold merge, adopts.
  destruct (localMap !! id note) as [local|].
  - destruct (updatedAt note >? updatedAt local)%Z; [|done].
    by apply TK_saveNote_ok.
  - by apply TK_saveNote_ok.
Qed.

Lemma merge_loop localMap rows :
  ∀ w, no_faults (host w) → NoDup (id <$> rows) →
    (∀ r, r ∈ rows →
       notes (exec (for_of rows (merge localMap)) w) !! id r =
       if adopts localMap r then Some r else notes w !! id r)
    ∧ (∀ i, i ∉ id <$> rows →
         notes (exec (for_of rows (merge localMap)) w) !! i = notes w !! i).
Proof.
  induction rows as [|x rows IH]; intros w Hnf Hnd.
  - split; [|done]. intros r Hr. by apply elem_of_nil in Hr.
  - apply NoDup_cons in Hnd as [Hx Hnd]. simpl for_of. unfold exec.
    rewrite (bind_val _ _ _ _ _ (merge_ok localMap x w Hnf)).
    set (w1 := if adopts localMap x
               then set_notes (<[id x := x]> (notes w)) (entered w) else w).
    assert (no_faults (host w1)) as Hnf1.
    { unfold w1. by destruct (adopts localMap x). }
    assert (∀ i, i ≠ id x → notes w1 !! i = notes w !! i) as Hother.
    { intros i Hi. unfold w1. destruct (adopts localMap x); [|done].
      simpl. by rewrite lookup_insert_ne. }
    assert (notes w1 !! id x = if adopts localMap x then Some x else notes w !! id x)
      as Hsame.
    { unfold w1. destruct (adopts localMap x); [|done].
      simpl. by rewrite lookup_insert_eq. }
    destruct (IH w1 Hnf1 Hnd) as [IHin IHout]. unfold exec in IHin, IHout.
    split.
    + intros r Hr. apply elem_of_cons in Hr as [->|Hr].
      * by rewrite (IHout _ Hx).
      * rewrite (IHin r Hr). destruct (adopts localMap r); [done|].
        apply Hother. intros Heq. apply Hx. rewrite <- Heq.
        by apply list_elem_of_fmap_2.
    + intros i Hi. simpl in Hi. apply not_elem_of_cons in Hi as [Hne Hi].
      rewrite (IHout i Hi). by apply Hother.
Qed.

(** C1. Pull merge is last-writer-wins by [updatedAt]: for every fetched
    row, the record found under its id after [syncFromSupabase] is the row
    itself when the store had no record with that id or an older one, and
    the untouched local record when the row is not newer, ties included. *)
Theorem pull_last_writer_wins (w : World) (rows : list Note) (r : Note) :
  isSupabaseConfigured (host w) = true →
  isOnline (host w) = true →
  no_faults (host w) →
  keyPath_ok (notes w) →
  remote (host w) (length (remoteLog w)) = Resolved (Some rows) false →
  NoDup (id <$> rows) →
  r ∈ rows →
  notes (exec syncFromSupabase w) !! id r =
  match notes w !! id r with
  | None => Some r
  | Some local =>
      if (updatedAt r >? updatedAt local)%Z then Some r else Some local
  end.
Proof.
  intros Hcfg Hon Hnf Hkey Hrem Hnd Hr.
  unfold syncFromSupabase. rewrite !exec_bind_ask, Hcfg, Hon. simpl.
  rewrite exec_try_catch_ret, exec_bind_await, Hrem. simpl.
  rewrite exec_bind_ret. unfold exec at 1.
  rewrite (bind_val _ _ _ _ _ (TK_getAllNotes_ok (logged [SelectAll] w) (Hnf _))).
  simpl notes. rewrite (js_Map_stored _ Hkey).
  destruct (merge_loop (notes w) rows (entered (logged [SelectAll] w)) Hnf Hnd)
    as [Hin _].
  unfold exec in Hin. rewrite (Hin r Hr). unfold adopts. simpl.
  destruct (notes w !! id r) as [local|]; [|done].
  by destruct (updatedAt r >? updatedAt local)%Z.
Qed.

(** *** The tail of a mutation *)

Lemma sync_or_queue_offline call queued w :
  isSupabaseConfigured (host w) = true →
  isOnline (host w) = false →
  idbFault (host w) (idbCtr w) = NoFault →
  sync_or_queue call queued w =
  (Val tt,
   queued_at (clock (host w) (S (tick w))) queued (clock (host w) (tick w))
             (Date_now (Date_now (entered w)).2).2).
Proof.
  intros Hcfg Hon Hok. unfold sync_or_queue.
  rewrite !bind_ask, Hcfg, Hon. cbn [andb].
  rewrite bind_Date_now.
  by rewrite TK_addToSyncQueue_ok.
Qed.

Lemma sync_or_queue_unconfigured call queued w :
  isSupabaseConfigured (host w) = false →
  sync_or_queue call queued w = (Val tt, w).
Proof.
  intros Hcfg. unfold sync_or_queue.
  by rewrite !bind_ask, Hcfg.
Qed.

Lemma sync_or_queue_preserves P call queued :
  observes P → preserves P call →
  (∀ w key t, P w → P (queued_at key queued t w)) →
  preserves P (sync_or_queue call queued).
Proof.
  intros HP Hcall Hq. unfold sync_or_queue.
  assert (preserves P (t <- Date_now ;; IndexedDB.addToSyncQueue (mkOp None queued t)))
    as Hqueue.
  { apply preserves_bind; [by apply preserves_Date_now|].
    intros t. apply TK_addToSyncQueue_preserves; [done|].
    intros w key Hw. by apply Hq. }
  apply preserves_bind; [apply preserves_ask|]. intros configured.
  apply preserves_bind; [apply preserves_ask|]. intros online.
  apply preserves_if.
  - apply preserves_try_catch; [done|]. by intros _.
  - apply preserves_if; [done|apply preserves_ret].
Qed.

(** The tail of a mutation leaves the 'notes' store alone. *)
Lemma sync_or_queue_keeps_notes c queued w :
  notes (exec (sync_or_queue (await_supabase c ;; ret tt) queued) w) = notes w.
Proof.
  apply (exec_preserves (fun w' => notes w' = notes w)); [|done].
  apply sync_or_queue_preserves.
  - intros w1 w2 _ Hn _ _. by rewrite Hn.
  - apply preserves_bind; [|intros; apply preserves_ret].
    apply await_supabase_preserves. by intros w1 Hw1.
  - by intros w1 key t Hw1.
Qed.

Lemma sync_or_queue_now_keeps_notes (c : Z → RemoteCall) queued w :
  notes (exec (sync_or_queue (now <- Date_now ;; await_supabase (c now) ;; ret tt)
                             queued) w) = notes w.
Proof.
  apply (exec_preserves (fun w' => notes w' = notes w)); [|done].
  assert (observes (fun w' => notes w' = notes w)) as HP.
  { intros w1 w2 _ Hn _ _. by rewrite Hn. }
  apply sync_or_queue_preserves; [done| |by intros w1 key t Hw1].
  apply preserves_bind; [by apply preserves_Date_now|]. intros now.
  apply preserves_bind; [|intros; apply preserves_ret].
  apply await_supabase_preserves. by intros w1 Hw1.
Qed.

Lemma exec_bind_ret_r {A B} (m : M A) (b : B) w :
  exec (m ;; ret b) w = exec m w.
Proof. unfold exec, bind, ret. by destruct (m w) as [[?|?] ?]. Qed.

Lemma createNote_notes input w :
  no_faults (host w) →
  notes (exec (createNote input) w)
  = <[id (created input w) := created input w]> (notes w).
Proof.
  intros Hnf. unfold createNote.
  rewrite exec_bind_uuidv4, !exec_bind_Date_now.
  erewrite exec_bind_val; [|apply TK_saveNote_ok; apply Hnf].
  rewrite exec_bind_ret_r.
  by rewrite sync_or_queue_keeps_notes.
Qed.

Lemma updateNote_notes i input w :
  no_faults (host w) → keyPath_ok (notes w) →
  notes (exec (updateNote i input) w)
  = match notes w !! i with
    | Some existing => <[i := updated i input existing w]> (notes w)
    | None => notes w
    end.
Proof.
  intros Hnf Hkey. unfold updateNote.
  erewrite exec_bind_val; [|apply TK_getAllNotes_ok; apply Hnf].
  rewrite (find_stored _ _ Hkey).
  destruct (notes w !! i) as [existing|]; [|done].
  rewrite exec_bind_Date_now.
  erewrite exec_bind_val; [|apply TK_saveNote_ok; apply Hnf].
  rewrite exec_bind_ret_r.
  by rewrite sync_or_queue_now_keeps_notes.
Qed.

Lemma updateNoteColor_notes i color' w :
  no_faults (host w) → keyPath_ok (notes w) →
  notes (exec (updateNoteColor i color') w)
  = match notes w !! i with
    | Some existing => <[i := recolored color' existing w]> (notes w)
    | None => notes w
    end.
Proof.
  intros Hnf Hkey. unfold updateNoteColor.
  erewrite exec_bind_val; [|apply TK_getAllNotes_ok; apply Hnf].
  rewrite (find_stored _ _ Hkey).
  destruct (notes w !! i) as [existing|] eqn:Hi; [|done].
  rewrite exec_bind_Date_now.
  erewrite exec_bind_val; [|apply TK_saveNote_ok; apply Hnf].
  rewrite exec_bind_ret_r.
  rewrite sync_or_queue_now_keeps_notes. simpl.
  pose proof (Hkey i existing Hi) as Hid. simpl in Hid.
  unfold recolored. by rewrite Hid.
Qed.

Lemma deleteNote_notes i w :
  no_faults (host w) →
  notes (exec (deleteNote i) w) = delete i (notes w).
Proof.
  intros Hnf. unfold deleteNote.
  erewrite exec_bind_val; [|apply TK_deleteNote_ok; apply Hnf].
  rewrite exec_bind_ret_r.
  by rewrite sync_or_queue_keeps_notes.
Qed.

(** *** Mutations *)

Lemma createNote_offline input w :
  isSupabaseConfigured (host w) = true →
  isOnline (host w) = false →
  no_faults (host w) →
  createNote input w =
  (Val (created input w),
   mkWorld (host w) (4 + tick w) (S (uuidCtr w)) (2 + idbCtr w) (remoteLog w) true
           (<[id (created input w) := created input w]> (notes w))
           (<[clock (host w) (3 + tick w) :=
                mkOp (Some (clock (host w) (3 + tick w)))
                     (OpCreate (created input w))
                     (clock (host w) (2 + tick w))]> (syncQueue w))
           (keyGen w)).
Proof.
  intros Hcfg Hon Hnf. unfold createNote.
  rewrite bind_uuidv4, !bind_Date_now.
  erewrite bind_val; [|apply TK_saveNote_ok; apply Hnf].
  erewrite bind_val; [|apply sync_or_queue_offline; [done|done|apply Hnf] ].
  reflexivity.
Qed.

(** C5. Offline create: with the remote configured and the host offline,
    [createNote] returns the new record (fresh id, both timestamps read
    from the clock) without any remote call; the record is in the 'notes'
    store and in what [getAllNotes] returns; and the sync queue gains
    exactly one entry, the 'create' of that record. The store calls are
    taken to go through, and the key the entry is filed under, a reading
    of the clock, is taken not to be in use. *)
Theorem offline_create (w : World) (input : NoteInput) :
  isSupabaseConfigured (host w) = true →
  isOnline (host w) = false →
  no_faults (host w) →
  syncQueue w !! create_key w = None →
  (∀ k op, syncQueue w !! k = Some op → target op ≠ id (created input w)) →
  eval (createNote input) w = Val (created input w)
  ∧ remoteLog (exec (createNote input) w) = remoteLog w
  ∧ notes (exec (createNote input) w) !! id (created input w)
    = Some (created input w)
  ∧ (∃ l, eval getAllNotes (exec (createNote input) w) = Val l
          ∧ created input w ∈ l)
  ∧ syncQueue (exec (createNote input) w)
    = <[create_key w := create_entry input w]> (syncQueue w)
  ∧ size (syncQueue (exec (createNote input) w)) = S (size (syncQueue w))
  ∧ (∀ k op, syncQueue (exec (createNote input) w) !! k = Some op →
             target op = id (created input w) →
             k = create_key w ∧ op = create_entry input w).
Proof.
  intros Hcfg Hon Hnf Hkey Hfresh.
  unfold eval, exec. rewrite (createNote_offline input w Hcfg Hon Hnf).
  simpl. fold (create_key w). fold (create_entry input w).
  split; [done|]. split; [done|]. split; [apply lookup_insert_eq|].
  split.
  { unfold getAllNotes.
    erewrite bind_val; [|apply TK_getAllNotes_ok; apply Hnf].
    rewrite !bind_ask. cbn [host entered]. rewrite Hcfg, Hon. cbn [andb].
    eexists. split; [reflexivity|].
    apply elem_of_stored. exists (id (created input w)). simpl.
    apply lookup_insert_eq. }
  split; [done|]. split; [by apply map_size_insert_None|].
  intros k op Hk Htarget.
  destruct (decide (k = create_key w)) as [->|Hne].
  - rewrite lookup_insert_eq in Hk. by injection Hk as <-.
  - rewrite lookup_insert_ne in Hk by done.
    by destruct (Hfresh k op Hk).
Qed.

(** In pure local mode the tail of a mutation does nothing. *)
Lemma unconfigured_local_only {A} (m : M A) w :
  isSupabaseConfigured (host w) = false →
  (∀ P, observes P → (∀ w1 note, P w1 → P (set_notes (<[id note := note]> (notes w1)) w1)) →
        (∀ w1 i, P w1 → P (set_notes (delete i (notes w1)) w1)) →
        (∀ w1, P w1 → isSupabaseConfigured (host w1) = false) →
        preserves P m) →
  local_only m w.
Proof.
  intros Hcfg Hm.
  set (P := fun w' : World =>
              host w' = host w ∧ syncQueue w' = syncQueue w
              ∧ remoteLog w' = remoteLog w).
  assert (P (exec m w)) as (_ & Hq & Hl); [|by split].
  apply exec_preserves; [|done]. apply Hm.
  - intros w1 w2 Hh _ Hq Hl. unfold P. by rewrite Hh, Hq, Hl.
  - by intros w1 note Hw1.
  - by intros w1 i Hw1.
  - intros w1 (Hh & _ & _). by rewrite Hh.
Qed.

Section PureLocal.
Variable P : World → Prop.
Hypothesis HP : observes P.
Hypothesis Hput : ∀ w note, P w → P (set_notes (<[id note := note]> (notes w)) w).
Hypothesis Hdel : ∀ w i, P w → P (set_notes (delete i (notes w)) w).
Hypothesis Hcfg : ∀ w, P w → isSupabaseConfigured (host w) = false.

Lemma sync_or_queue_unconfigured_preserves call queued :
  preserves P (sync_or_queue call queued).
Proof.
  intros w Hw. by rewrite (sync_or_queue_unconfigured _ _ _ (Hcfg w Hw)).
Qed.

Lemma createNote_unconfigured_preserves input : preserves P (createNote input).
Proof.
  unfold createNote.
  apply preserves_bind; [by apply preserves_uuidv4|]. intros i.
  apply preserves_bind; [by apply preserves_Date_now|]. intros c.
  apply preserves_bind; [by apply preserves_Date_now|]. intros u.
  apply preserves_bind; [apply TK_saveNote_preserves; auto|]. intros _.
  apply preserves_bind; [apply sync_or_queue_unconfigured_preserves|].
  intros _. apply preserves_ret.
Qed.

Lemma updateNote_unconfigured_preserves i input : preserves P (updateNote i input).
Proof.
  unfold updateNote.
  apply preserves_bind; [by apply TK_getAllNotes_preserves|]. intros l.
  destruct (find _ l); [|apply preserves_ret].
  apply preserves_bind; [by apply preserves_Date_now|]. intros u.
  apply preserves_bind; [apply TK_saveNote_preserves; auto|]. intros _.
  apply preserves_bind; [apply sync_or_queue_unconfigured_preserves|].
  intros _. apply preserves_ret.
Qed.

Lemma deleteNote_unconfigured_preserves i : preserves P (deleteNote i).
Proof.
  unfold deleteNote.
  apply preserves_bind; [apply TK_deleteNote_preserves; auto|]. intros _.
  apply preserves_bind; [apply sync_or_queue_unconfigured_preserves|].
  intros _. apply preserves_ret.
Qed.

Lemma updateNoteColor_unconfigured_preserves i color' :
  preserves P (updateNoteColor i color').
Proof.
  unfold updateNoteColor.
  apply preserves_bind; [by apply TK_getAllNotes_preserves|]. intros l.
  destruct (find _ l); [|apply preserves_ret].
  apply preserves_bind; [by apply preserves_Date_now|]. intros u.
  apply preserves_bind; [apply TK_saveNote_preserves; auto|]. intros _.
  apply preserves_bind; [apply sync_or_queue_unconfigured_preserves|].
  intros _. apply preserves_ret.
Qed.
End PureLocal.

(** C9. Pure local mode: when the remote is not configured, each of the
    four mutations (create, update, delete, recolor) appends no entry to
    the sync queue and makes no remote call, whatever happens in the
    store; and when the store calls go through, the mutation is applied
    to the 'notes' store. *)
Theorem pure_local_mode (w : World) (input : NoteInput) (i color' : string) :
  isSupabaseConfigured (host w) = false →
  (local_only (createNote input) w ∧ local_only (updateNote i input) w
   ∧ local_only (deleteNote i) w ∧ local_only (updateNoteColor i color') w)
  ∧ (no_faults (host w) → keyPath_ok (notes w) →
     notes (exec (createNote input) w)
     = <[id (created input w) := created input w]> (notes w)
     ∧ notes (exec (updateNote i input) w)
       = match notes w !! i with
         | Some existing => <[i := updated i input existing w]> (notes w)
         | None => notes w
         end
     ∧ notes (exec (deleteNote i) w) = delete i (notes w)
     ∧ notes (exec (updateNoteColor i color') w)
       = match notes w !! i with
         | Some existing => <[i := recolored color' existing w]> (notes w)
         | None => notes w
         end).
Proof.
  intros Hcfg. split.
  - split; [|split; [|split]];
      (apply unconfigured_local_only; [done|]; intros P HP Hput Hdel Hc).
    + by apply createNote_unconfigured_preserves.
    + by apply updateNote_unconfigured_preserves.
    + by apply deleteNote_unconfigured_preserves.
    + by apply updateNoteColor_unconfigured_preserves.
  - intros Hnf Hkey.
    auto using createNote_notes, updateNote_notes, deleteNote_notes,
               updateNoteColor_notes.
Qed.

(** C10. Mutations of an absent id are rejected without side effects:
    for an id under which the 'notes' store holds nothing, [updateNote]
    returns null and [updateNoteColor] returns false (unless the read of
    the store itself is rejected), and in every case neither store is
    written and no remote call is made. *)
Theorem absent_id_rejected (w : World) (i : string) (input : NoteInput) (color' : string) :
  keyPath_ok (notes w) →
  notes w !! i = None →
  (idbFault (host w) (idbCtr w) ≠ RequestError →
   eval (updateNote i input) w = Val None
   ∧ eval (updateNoteColor i color') w = Val false)
  ∧ untouched (updateNote i input) w
  ∧ untouched (updateNoteColor i color') w.
Proof.
  intros Hkey Hi.
  assert (∃ r w1, TimeKeyedStore.getAllNotes w = (r, w1)
                  ∧ notes w1 = notes w ∧ syncQueue w1 = syncQueue w
                  ∧ remoteLog w1 = remoteLog w
                  ∧ match r with
                    | Val l => find (fun n => bool_decide (id n = i)) l = None
                    | Exn _ => idbFault (host w) (idbCtr w) = RequestError
                    end) as (r & w1 & Hget & Hn & Hq & Hl & Hr).
  { unfold TimeKeyedStore.getAllNotes. run_store.
    destruct (db w), (idbFault (host w) (idbCtr w)); simpl;
      eexists _, _; (split; [reflexivity|]); simpl; repeat split; try done;
      by rewrite (find_stored _ _ Hkey). }
  unfold untouched, eval, exec, updateNote, updateNoteColor.
  destruct r as [l|e].
  - rewrite !(bind_val _ _ _ _ _ Hget), Hr. by simpl.
  - rewrite !(bind_exn _ _ _ _ _ Hget). by simpl.
Qed.


(** *** Timestamps *)

(** C7, as amended. In the service that carries [updatedAt]:
    [updateNote] and [updateNoteColor] keep the [createdAt] of the stored
    record and set [updatedAt] to the reading of the clock taken at the
    mutation, and [createNote] sets the two timestamps to two successive
    readings; a store in which every note has [updatedAt >= createdAt]
    keeps that property under the four mutations provided the reading is
    not earlier than the record's [createdAt] and the clock does not go
    back between the two readings of a create. *)
Theorem local_writes_timestamps
    (w : World) (i : string) (input : NoteInput) (color' : string) (existing : Note) :
  no_faults (host w) →
  keyPath_ok (notes w) →
  notes w !! i = Some existing →
  notes (exec (updateNote i input) w) !! i = Some (updated i input existing w)
  ∧ notes (exec (updateNoteColor i color') w) !! i = Some (recolored color' existing w)
  ∧ notes (exec (createNote input) w) !! id (created input w) = Some (created input w)
  ∧ createdAt (updated i input existing w) = createdAt existing
  ∧ createdAt (recolored color' existing w) = createdAt existing
  ∧ updatedAt (updated i input existing w) = clock (host w) (tick w)
  ∧ updatedAt (recolored color' existing w) = clock (host w) (tick w)
  ∧ (timestamps_ok (notes w) →
     (createdAt existing ≤ clock (host w) (tick w))%Z →
     (clock (host w) (tick w) ≤ clock (host w) (S (tick w)))%Z →
     timestamps_ok (notes (exec (updateNote i input) w))
     ∧ timestamps_ok (notes (exec (updateNoteColor i color') w))
     ∧ timestamps_ok (notes (exec (createNote input) w))
     ∧ timestamps_ok (notes (exec (deleteNote i) w))).
Proof.
  intros Hnf Hkey Hi.
  rewrite (updateNote_notes i input w Hnf Hkey), (updateNoteColor_notes i color' w Hnf Hkey),
    (createNote_notes input w Hnf), (deleteNote_notes i w Hnf), Hi.
  rewrite !lookup_insert_eq.
  repeat (split; [done|]).
  intros Hts Hupd Hcre. repeat split.
  - by apply map_Forall_insert_2.
  - by apply map_Forall_insert_2.
  - by apply map_Forall_insert_2.
  - by apply map_Forall_delete.
Qed.

(** C7 fails as stated: [updatedAt >= createdAt] is not kept "at all
    times". An update made after the clock was set back, and a pull that
    adopts a remote row whose [updated_at] precedes its [created_at], each
    take a store that satisfies the property to one that does not. *)
Lemma timestamp_order_not_kept :
  (timestamps_ok (notes world_clock_set_back)
   ∧ ¬ timestamps_ok (notes (exec (updateNote "a" input_x) world_clock_set_back)))
  ∧ (timestamps_ok (notes world_skewed_row)
     ∧ ¬ timestamps_ok (notes (exec syncFromSupabase world_skewed_row))).
Proof.
  split; split.
  - apply map_Forall_singleton. simpl. lia.
  - intros H.
    assert (notes (exec (updateNote "a" input_x) world_clock_set_back) !! "a"
            = Some (mkNote "a" "x" "" "white" 100 50)) as Hn
      by (vm_compute; reflexivity).
    specialize (H _ _ Hn). simpl in H. lia.
  - apply map_Forall_empty.
  - intros H.
    assert (notes (exec syncFromSupabase world_skewed_row) !! "c"
            = Some remote_skewed) as Hn
      by (vm_compute; reflexivity).
    specialize (H _ _ Hn). simpl in H. lia.
Qed.

(** *** Storage failures *)

(** What a fault does to a call of the time-keyed store, case by case: a
    rejected request reaches the caller, and makes each mutation of the
    service fail with it; a failure to open the database is caught
    inside the store method, which then resolves as if nothing had
    happened, the store unchanged, and so is a transaction that cannot be
    started; without fault the write is done. *)
Lemma storage_failure_reporting
    (w : World) (note : Note) (op : SyncOperation) (input : NoteInput) :
  match idbFault (host w) (idbCtr w) with
  | RequestError =>
      eval (IndexedDB.saveNote note) w = Exn StorageError
      ∧ eval (IndexedDB.addToSyncQueue op) w = Exn StorageError
      ∧ eval (createNote input) w = Exn StorageError
      ∧ eval (deleteNote (id note)) w = Exn StorageError
      ∧ eval (updateNote (id note) input) w = Exn StorageError
      ∧ eval (updateNoteColor (id note) (color note)) w = Exn StorageError
  | OpenError =>
      db w = false →
      eval (IndexedDB.saveNote note) w = Val tt
      ∧ notes (exec (IndexedDB.saveNote note) w) = notes w
      ∧ eval (IndexedDB.addToSyncQueue op) w = Val tt
      ∧ syncQueue (exec (IndexedDB.addToSyncQueue op) w) = syncQueue w
      ∧ eval IndexedDB.getAllNotes w = Val []
  | TransactionError =>
      eval (IndexedDB.saveNote note) w = Val tt
      ∧ notes (exec (IndexedDB.saveNote note) w) = notes w
      ∧ eval (IndexedDB.addToSyncQueue op) w = Val tt
      ∧ syncQueue (exec (IndexedDB.addToSyncQueue op) w) = syncQueue w
      ∧ eval IndexedDB.getAllNotes w = Val []
  | NoFault =>
      eval (IndexedDB.saveNote note) w = Val tt
      ∧ notes (exec (IndexedDB.saveNote note) w) = <[id note := note]> (notes w)
  end.
Proof.
  unfold eval, exec, createNote, deleteNote, updateNote, updateNoteColor.
  rewrite bind_uuidv4, !bind_Date_now.
  simpl IndexedDB.saveNote. simpl IndexedDB.addToSyncQueue.
  simpl IndexedDB.getAllNotes. simpl IndexedDB.deleteNote.
  unfold TimeKeyedStore.saveNote, TimeKeyedStore.addToSyncQueue,
    TimeKeyedStore.getAllNotes, TimeKeyedStore.deleteNote.
  run_store.
  destruct (idbFault (host w) (idbCtr w)).
  - by destruct (db w).
  - by intros ->.
  - by destruct (db w).
  - by destruct (db w).
Qed.

(** C8, at the failing input: the database cannot be opened. [saveNote]
    resolves normally although nothing was written, and so [createNote]
    returns the new record to its caller while the 'notes' store stays
    empty. *)
Theorem open_failure_is_swallowed :
  eval (createNote input_x) world_no_database = Val (created input_x world_no_database)
  ∧ notes (exec (createNote input_x) world_no_database) = ∅
  ∧ eval (IndexedDB.saveNote note_a) world_no_database = Val tt
  ∧ notes (exec (IndexedDB.saveNote note_a) world_no_database) = ∅.
Proof. repeat split; vm_compute; reflexivity. Qed.

(** *** Keys of the sync queue *)

(** C6, at the failing input: two notes are created offline within one
    millisecond. Both are stored, but the second entry takes the key of
    the first in the sync queue, which is left with one entry. And when
    the clock is set back between the creation of a note and its deletion,
    the later entry gets the smaller key: the queue lists the 'delete'
    before the 'create'. *)
Theorem clock_keys_collide_and_reorder :
  (let w' := exec (createNote input_x ;; createNote input_x) world_same_millisecond in
   size (notes w') = 2%nat
   ∧ queue_getAll (syncQueue w')
     = [mkOp (Some 1000) (OpCreate (mkNote "9c41" "x" "" "white" 1000 1000)) 1000])
  ∧ (let w' := exec (createNote input_x ;; deleteNote "3f2a") world_clock_stepped_back in
     queue_getAll (syncQueue w')
     = [mkOp (Some 505) (OpDelete "3f2a") 504;
        mkOp (Some 1003) (OpCreate (mkNote "3f2a" "x" "" "white" 1000 1001)) 1002]).
Proof. repeat split; vm_compute; reflexivity. Qed.

End TimeKeyedApp.

(** ** The auto-increment store *)

Section AutoIncrementFacts.
Import AutoIncrementStore.

Ltac run_auto :=
  unfold eval, exec, bind, ret, throw, idb_enter, init, ensureDB, idb_transaction,
    idb_request, notes_put, queue_add; simpl.

(** An entry that brings no id is filed under the next generated key,
    which is above every key in use and so takes nobody's place. *)
Lemma AutoIncrement_enqueue_takes_next_key (w : World) (op : SyncOperation) :
  idbFault (host w) (idbCtr w) = NoFault →
  opId op = None →
  keyGen_ahead w →
  eval (addToSyncQueue op) w = Val tt
  ∧ syncQueue w !! keyGen w = None
  ∧ syncQueue (exec (addToSyncQueue op) w)
    = <[keyGen w := mkOp (Some (keyGen w)) (operation op) (timestamp op)]> (syncQueue w)
  ∧ keyGen_ahead (exec (addToSyncQueue op) w).
Proof.
  intros Hok Hid Hahead.
  assert (syncQueue w !! keyGen w = None) as Hfree.
  { destruct (syncQueue w !! keyGen w) eqn:E; [|done].
    assert (keyGen w < keyGen w)%Z by (apply Hahead; by rewrite E). lia. }
  unfold addToSyncQueue. run_auto. rewrite Hok. simpl. rewrite Hid. simpl.
  repeat split; try done.
  intros k. simpl. destruct (decide (k = keyGen w)) as [->|Hne]; [lia|].
  rewrite lookup_insert_ne by done. intros Hk. specialize (Hahead k Hk). lia.
Qed.

(** Every fault reaches the caller of this store. *)
Lemma AutoIncrement_faults_reach_the_caller (w : World) (note : Note) :
  idbFault (host w) (idbCtr w) ≠ NoFault →
  eval (saveNote note) w = Exn StorageError
  ∧ notes (exec (saveNote note) w) = notes w.
Proof.
  intros Hfault. unfold saveNote. run_auto.
  by destruct (idbFault (host w) (idbCtr w)).
Qed.
End AutoIncrementFacts.

(** Over this store a read of the queue that fails aborts the push:
    nothing is sent and the queue is kept. *)
Lemma AutoIncrement_unread_queue_is_kept (w : World) :
  idbFault (host w) (idbCtr w) ≠ NoFault →
  syncQueue (exec (NotesService.syncToSupabase
                     (indexedDBService := AutoIncrementStore.indexedDBService)) w)
  = syncQueue w
  ∧ remoteLog (exec (NotesService.syncToSupabase
                       (indexedDBService := AutoIncrementStore.indexedDBService)) w)
    = remoteLog w.
Proof.
  intros Hf. unfold NotesService.syncToSupabase. rewrite !exec_bind_ask.
  destruct (negb _ || negb _); [done|].
  rewrite exec_try_catch_ret. unfold exec.
  assert (∃ w1, AutoIncrementStore.getSyncQueue w = (Exn StorageError, w1)
                ∧ syncQueue w1 = syncQueue w ∧ remoteLog w1 = remoteLog w)
    as (w1 & Hget & Hq & Hl).
  { unfold AutoIncrementStore.getSyncQueue, bind, idb_enter, AutoIncrementStore.init,
      AutoIncrementStore.ensureDB, idb_transaction, idb_request, throw, ret.
    simpl. destruct (idbFault (host w) (idbCtr w)); simpl; [done|eauto..]. }
  erewrite bind_exn; [|exact Hget]. done.
Qed.

(** ** The earlier notes service *)

(** C2, at the failing input: the store holds the notes "a" and "b" and
    the remote answers with "a" alone. The pull of the earlier service
    clears the store before it saves the fetched rows, so "b", which the
    fetch does not mention, is gone afterwards; the pull of the service
    that carries [updatedAt] keeps it on the same input. *)
Theorem earlier_pull_drops_local_only_note :
  notes world_local_only_note !! "b" = Some note_b
  ∧ ("b" ∉ id <$> fetched world_local_only_note)
  ∧ notes (exec (EarlierNotesService.syncFromSupabase
                   (indexedDBService := AutoIncrementStore.indexedDBService))
                world_local_only_note) !! "b" = None
  ∧ notes (exec (NotesService.syncFromSupabase
                   (indexedDBService := TimeKeyedStore.indexedDBService))
                world_local_only_note) !! "b" = Some note_b.
Proof.
  split; [by vm_compute|]. split.
  - vm_compute. intros H. apply list_elem_of_singleton in H. discriminate.
  - split; by vm_compute.
Qed.

(** The update of the earlier service overwrites [createdAt] with the
    reading of the clock. *)
Lemma earlier_update_overwrites_createdAt :
  createdAt <$> notes world_local !! "a" = Some 100%Z
  ∧ createdAt <$> notes (exec (EarlierNotesService.updateNote
                                 (indexedDBService := AutoIncrementStore.indexedDBService)
                                 "a" input_x)
                              world_local) !! "a" = Some 1000%Z.
Proof. split; by vm_compute. Qed.

(** ** The statements at work on the example worlds *)

Lemma pull_last_writer_wins_witness :
  notes (exec (NotesService.syncFromSupabase
                 (indexedDBService := TimeKeyedStore.indexedDBService)) world_online)
        !! id remote_a_newer
  = match notes world_online !! id remote_a_newer with
    | None => Some remote_a_newer
    | Some local =>
        if (updatedAt remote_a_newer >? updatedAt local)%Z
        then Some remote_a_newer else Some local
    end.
Proof.
  apply (pull_last_writer_wins world_online [remote_a_newer; remote_b_older]).
  - reflexivity.
  - reflexivity.
  - intros n. reflexivity.
  - apply keyPath_ok_insert with (note := note_a).
    apply keyPath_ok_insert with (note := note_b).
    apply map_Forall_empty.
  - reflexivity.
  - apply NoDup_cons. split; [|apply NoDup_singleton].
    intros H. apply list_elem_of_singleton in H. discriminate.
  - left.
Defined.

Lemma offline_create_witness :
  eval (NotesService.createNote (indexedDBService := TimeKeyedStore.indexedDBService)
                                input_x) world_offline
  = Val (created input_x world_offline)
  ∧ remoteLog (exec (NotesService.createNote
                       (indexedDBService := TimeKeyedStore.indexedDBService) input_x)
                    world_offline)
    = remoteLog world_offline.
Proof.
  pose proof (offline_create world_offline input_x) as H.
  destruct H as (H1 & H2 & _).
  - reflexivity.
  - reflexivity.
  - intros n. reflexivity.
  - reflexivity.
  - intros k op Hk. simpl in Hk. rewrite lookup_empty in Hk. discriminate.
  - split; assumption.
Defined.

Lemma pure_local_mode_witness :
  local_only (NotesService.createNote (indexedDBService := TimeKeyedStore.indexedDBService)
                                      input_x) world_local
  ∧ local_only (NotesService.deleteNote (indexedDBService := TimeKeyedStore.indexedDBService)
                                        "a") world_local.
Proof.
  destruct (pure_local_mode world_local input_x "a" "green") as [(H1 & _ & H3 & _) _].
  - reflexivity.
  - split; assumption.
Defined.

Lemma absent_id_rejected_witness :
  untouched (NotesService.updateNote (indexedDBService := TimeKeyedStore.indexedDBService)
                                     "zz" input_x) world_local
  ∧ untouched (NotesService.updateNoteColor
                 (indexedDBService := TimeKeyedStore.indexedDBService) "zz" "green")
              world_local.
Proof.
  destruct (absent_id_rejected world_local "zz" input_x "green") as (_ & H2 & H3).
  - apply keyPath_ok_insert with (note := note_a). apply map_Forall_empty.
  - reflexivity.
  - split; assumption.
Defined.

Lemma local_writes_timestamps_witness :
  notes (exec (NotesService.updateNote (indexedDBService := TimeKeyedStore.indexedDBService)
                                       "a" input_x) world_local) !! "a"
  = Some (updated "a" input_x note_a world_local).
Proof.
  destruct (local_writes_timestamps world_local "a" input_x "green" note_a) as (H1 & _).
  - intros n. reflexivity.
  - apply keyPath_ok_insert with (note := note_a). apply map_Forall_empty.
  - reflexivity.
  - exact H1.
Defined.

(** * Further properties of the store and the service *)

(** ** The 'notes' store *)

Lemma units_leb_trans u v x :
  units_leb u v = true → units_leb v x = true → units_leb u x = true.
Proof.
  revert v x. induction u as [|a u IH]; intros [|b v] [|c x]; simpl; try done.
  rewrite !orb_true_iff, !andb_true_iff, !N.ltb_lt, !N.eqb_eq.
  intros [Hab|[-> Huv]] [Hbc|[-> Hvx]].
  - left. lia.
  - by left.
  - by left.
  - right. split; [done|]. by apply (IH v).
Qed.

Lemma units_leb_total u v : units_leb u v = true ∨ units_leb v u = true.
Proof.
  revert v. induction u as [|a u IH]; intros [|b v]; simpl; auto.
  rewrite !orb_true_iff, !andb_true_iff, !N.ltb_lt, !N.eqb_eq.
  destruct (N.lt_trichotomy a b) as [Hlt|[->|Hgt]]; [by left; left| |by right; left].
  destruct (IH v); [left|right]; by right.
Qed.

Global Instance id_le_trans : Transitive id_le.
Proof. intros a b c. unfold id_le, key_order. apply units_leb_trans. Qed.

Global Instance id_le_total : Total id_le.
Proof. intros a b. unfold id_le, key_order. apply units_leb_total. Qed.

Lemma notes_getAll_id_order m :
  keyPath_ok m → StronglySorted id_order (notes_getAll m).
Proof.
  intros Hkey. unfold notes_getAll.
  assert (Forall (fun p : string * Note => id p.2 = p.1) (merge_sort id_le (map_to_list m)))
    as Hall.
  { rewrite merge_sort_Permutation. apply Forall_forall. intros [k n] Hin.
    apply elem_of_map_to_list in Hin. simpl. by apply (Hkey k n). }
  pose proof (StronglySorted_merge_sort id_le (map_to_list m)) as Hs.
  induction Hs as [|p l Hs IH Hp]; simpl; [constructor|].
  apply Forall_cons in Hall as [Hp1 Hall].
  constructor; [by apply IH|].
  apply Forall_fmap, Forall_forall. intros q Hq.
  rewrite Forall_forall in Hp, Hall. specialize (Hp q Hq). specialize (Hall q Hq).
  unfold id_order, id_le in *. simpl. by rewrite Hp1, Hall.
Qed.

Lemma sort_insert_display x l :
  StronglySorted display_order l →
  Forall (id_order x) l →
  StronglySorted display_order (sort_insert newest_first x l).
Proof.
  induction 1 as [|y l Hs IH Hy]; intros Hx; simpl.
  { repeat constructor. }
  apply Forall_cons in Hx as [Hxy Hx].
  unfold newest_first at 1. destruct (Z.leb_spec (createdAt y) (createdAt x)) as [Hle|Hlt].
  - constructor; [by constructor|].
    assert (display_order x y) as Hdxy.
    { unfold display_order. destruct (decide (createdAt y = createdAt x)); [right|left]; [done|lia]. }
    constructor; [done|].
    rewrite Forall_forall in Hy, Hx. apply Forall_forall. intros z Hz.
    specialize (Hy z Hz). specialize (Hx z Hz).
    unfold display_order in *.
    destruct (decide (createdAt z = createdAt x)); [right|left]; [done|].
    destruct Hy as [?|[? _]]; lia.
  - constructor; [by apply IH|].
    rewrite sort_insert_perm. constructor; [|done].
    left. lia.
Qed.

Lemma js_sort_display l :
  StronglySorted id_order l → StronglySorted display_order (js_sort newest_first l).
Proof.
  induction 1 as [|x l Hs IH Hx]; simpl; [constructor|].
  apply sort_insert_display; [done|]. by rewrite js_sort_perm.
Qed.

Lemma stored_display_order m :
  keyPath_ok m → StronglySorted display_order (stored m).
Proof. intros Hkey. by apply js_sort_display, notes_getAll_id_order. Qed.

(** ** The auto-increment store when no fault hits the call *)
Section AutoIncrementValues.
Import AutoIncrementStore.
Variable w : World.
Hypothesis Hok : idbFault (host w) (idbCtr w) = NoFault.

Ltac run_ai :=
  unfold bind, ret, throw, idb_enter, init, ensureDB, idb_transaction, idb_request,
    notes_put, notes_delete, notes_read, queue_read, queue_clear; simpl;
  rewrite Hok; reflexivity.

Lemma AI_getAllNotes_ok : getAllNotes w = (Val (stored (notes w)), entered w).
Proof. unfold getAllNotes. run_ai. Qed.

Lemma AI_saveNote_ok note :
  saveNote note w = (Val tt, set_notes (<[id note := note]> (notes w)) (entered w)).
Proof. unfold saveNote. run_ai. Qed.

Lemma AI_deleteNote_ok i :
  deleteNote i w = (Val tt, set_notes (delete i (notes w)) (entered w)).
Proof. unfold deleteNote. run_ai. Qed.

Lemma AI_getSyncQueue_ok :
  getSyncQueue w = (Val (queue_getAll (syncQueue w)), entered w).
Proof. unfold getSyncQueue. run_ai. Qed.

Lemma AI_clearSyncQueue_ok :
  clearSyncQueue w = (Val tt, set_syncQueue ∅ (keyGen w) (entered w)).
Proof. unfold clearSyncQueue. run_ai. Qed.
End AutoIncrementValues.

(** X1. [getAllNotes] of either store, when no fault hits the call,
    resolves to the records of the 'notes' store, each exactly once, the
    one created later first and, among notes created in the same
    millisecond, in ascending order of id. *)
Theorem getAllNotes_lists_store_newest_first (w : World) :
  idbFault (host w) (idbCtr w) = NoFault →
  keyPath_ok (notes w) →
  eval TimeKeyedStore.getAllNotes w = Val (stored (notes w))
  ∧ eval AutoIncrementStore.getAllNotes w = Val (stored (notes w))
  ∧ (∀ n, n ∈ stored (notes w) ↔ ∃ k, notes w !! k = Some n)
  ∧ NoDup (stored (notes w))
  ∧ StronglySorted display_order (stored (notes w)).
Proof.
  intros Hok Hkey. unfold eval.
  rewrite (TK_getAllNotes_ok w Hok), (AI_getAllNotes_ok w Hok).
  split; [done|]. split; [done|]. split; [apply elem_of_stored|].
  split; [|by apply stored_display_order].
  eapply NoDup_fmap_1. by apply stored_ids_NoDup.
Qed.

(** X2. [saveNote] is an upsert: a read after it lists the saved note,
    lists no other record under its id, and lists the notes of other ids
    as before; saving the same note twice leaves the store as saving it
    once. *)
Theorem saveNote_is_upsert (w : World) (note : Note) :
  idbFault (host w) (idbCtr w) = NoFault →
  idbFault (host w) (S (idbCtr w)) = NoFault →
  keyPath_ok (notes w) →
  (∃ l, eval (TimeKeyedStore.saveNote note ;; TimeKeyedStore.getAllNotes) w = Val l
        ∧ note ∈ l
        ∧ (∀ n, n ∈ l → id n = id note → n = note)
        ∧ (∀ n, id n ≠ id note → n ∈ l ↔ n ∈ stored (notes w)))
  ∧ notes (exec (TimeKeyedStore.saveNote note ;; TimeKeyedStore.saveNote note) w)
    = notes (exec (TimeKeyedStore.saveNote note) w).
Proof.
  intros Hok Hok' Hkey. split.
  - unfold eval. rewrite (bind_val _ _ _ _ _ (TK_saveNote_ok w Hok note)).
    rewrite TK_getAllNotes_ok by done. simpl.
    change (js_sort newest_first (notes_getAll ?m)) with (stored m).
    pose proof (keyPath_ok_insert _ note Hkey) as Hkey'.
    eexists. split; [reflexivity|]. split; [|split].
    + apply elem_of_stored. exists (id note). apply lookup_insert_eq.
    + intros n Hn Hid.
      assert (<[id note := note]> (notes w) !! id note = Some n) as Hl
        by by apply (stored_lookup _ Hkey').
      rewrite lookup_insert_eq in Hl. by injection Hl.
    + intros n Hne. rewrite !elem_of_stored. split.
      * intros [k Hk]. exists k.
        rewrite lookup_insert_ne in Hk; [done|]. intros <-.
        apply Hne. symmetry. rewrite lookup_insert_eq in Hk. by injection Hk as <-.
      * intros [k Hk]. exists k. rewrite lookup_insert_ne; [done|].
        intros <-. apply Hne. by rewrite (Hkey _ _ Hk).
  - unfold exec. rewrite (bind_val _ _ _ _ _ (TK_saveNote_ok w Hok note)).
    rewrite !TK_saveNote_ok by done. simpl. apply insert_insert_eq.
Qed.

(** X3. [deleteNote] of the time-keyed store: deleting an id that is
    not stored changes nothing and does not fail (only a failing delete
    request makes the call reject); when the calls go through, a read after
    it lists exactly the notes stored under other ids, and deleting twice
    leaves the store as deleting once. *)
Theorem deleteNote_is_idempotent (w : World) (i : string) :
  (notes w !! i = None → notes (exec (TimeKeyedStore.deleteNote i) w) = notes w)
  ∧ (idbFault (host w) (idbCtr w) ≠ RequestError →
     eval (TimeKeyedStore.deleteNote i) w = Val tt)
  ∧ (idbFault (host w) (idbCtr w) = NoFault →
     idbFault (host w) (S (idbCtr w)) = NoFault →
     notes (exec (TimeKeyedStore.deleteNote i) w) = delete i (notes w)
     ∧ notes (exec (TimeKeyedStore.deleteNote i ;; TimeKeyedStore.deleteNote i) w)
       = notes (exec (TimeKeyedStore.deleteNote i) w)
     ∧ ∃ l, eval (TimeKeyedStore.deleteNote i ;; TimeKeyedStore.getAllNotes) w = Val l
            ∧ ∀ n, n ∈ l ↔ (∃ k, k ≠ i ∧ notes w !! k = Some n)).
Proof.
  split; [|split].
  - intros Hi.
    apply (exec_preserves (fun w' => notes w' = notes w)); [|done].
    apply TK_deleteNote_preserves.
    + intros w1 w2 _ Hn _ _. by rewrite Hn.
    + intros w1 Hw1. simpl. rewrite Hw1. by apply delete_id.
  - intros Hf. unfold eval, TimeKeyedStore.deleteNote. run_store.
    by destruct (db w), (idbFault (host w) (idbCtr w)).
  - intros Hok Hok'. unfold exec, eval.
    rewrite !(bind_val _ _ _ _ _ (TK_deleteNote_ok w Hok i)).
    rewrite TK_deleteNote_ok by done.
    rewrite (TK_deleteNote_ok (set_notes _ (entered w))) by done.
    rewrite TK_getAllNotes_ok by done. simpl.
    change (js_sort newest_first (notes_getAll ?m)) with (stored m).
    split; [done|]. split; [by rewrite delete_delete_eq|].
    eexists. split; [reflexivity|]. intros n. rewrite elem_of_stored. split.
    + intros [k Hk]. exists k. apply lookup_delete_Some in Hk as [? ?]. done.
    + intros [k [Hne Hk]]. exists k. by rewrite lookup_delete_ne.
Qed.

(** ** What each operation of the service can change *)
Section Footprint.
Local Existing Instance TimeKeyedStore.indexedDBService.
Import NotesService.
Variable P : World → Prop.
Hypothesis HP : observes P.

Section Push.
Hypothesis Hlog : ∀ w c, P w → P (logged [c] w).
Hypothesis Hclr : ∀ w, P w → P (set_syncQueue ∅ (keyGen w) w).

Lemma push_preserves op : preserves P (push op).
Proof.
  unfold push. destruct (operation op) as [data|data|i].
  - apply preserves_bind; [apply preserves_toISOString|]. intros t.
    apply preserves_bind; [|intros; apply preserves_ret].
    apply await_supabase_preserves; auto.
  - apply preserves_bind; [apply preserves_toISOString|]. intros t.
    apply preserves_bind; [|intros; apply preserves_ret].
    apply await_supabase_preserves; auto.
  - apply preserves_bind; [|intros; apply preserves_ret].
    apply await_supabase_preserves; auto.
Qed.

Lemma syncToSupabase_preserves : preserves P syncToSupabase.
Proof.
  unfold syncToSupabase.
  apply preserves_bind; [apply preserves_ask|]. intros configured.
  apply preserves_bind; [apply preserves_ask|]. intros online.
  apply preserves_if; [apply preserves_ret|].
  apply preserves_try_catch; [|intros; apply preserves_ret].
  apply preserves_bind; [by apply TK_getSyncQueue_preserves|]. intros queue.
  apply preserves_bind.
  - apply preserves_for_of. intros op _. apply push_preserves.
  - intros _. by apply TK_clearSyncQueue_preserves.
Qed.

Lemma syncPendingOperations_preserves : preserves P syncPendingOperations.
Proof.
  unfold syncPendingOperations.
  apply preserves_bind; [apply preserves_ask|]. intros configured.
  apply preserves_bind; [apply preserves_ask|]. intros online.
  apply preserves_if; [apply preserves_ret|apply syncToSupabase_preserves].
Qed.
End Push.

Section Pull.
Hypothesis Hlog : ∀ w c, P w → P (logged [c] w).
Hypothesis Hput : ∀ w note, P w → P (set_notes (<[id note := note]> (notes w)) w).

Lemma merge_preserves localMap note : preserves P (merge localMap note).
Proof.
  unfold merge.
  assert (preserves P (IndexedDB.saveNote note)) as Hsave
    by (apply TK_saveNote_preserves; auto).
  destruct (localMap !! id note) as [local|]; [|done].
  destruct (updatedAt note >? updatedAt local)%Z; [done|apply preserves_ret].
Qed.

Lemma syncFromSupabase_preserves : preserves P syncFromSupabase.
Proof.
  unfold syncFromSupabase.
  apply preserves_bind; [apply preserves_ask|]. intros configured.
  apply preserves_bind; [apply preserves_ask|]. intros online.
  apply preserves_if; [apply preserves_ret|].
  apply preserves_try_catch; [|intros; apply preserves_ret].
  apply preserves_bind; [apply await_supabase_preserves; auto|]. intros response.
  apply preserves_bind.
  { apply preserves_if; [apply preserves_throw|apply preserves_ret]. }
  intros _.
  apply preserves_bind; [by apply TK_getAllNotes_preserves|]. intros localNotes.
  apply preserves_for_of. intros note _. apply merge_preserves.
Qed.
End Pull.

Section Mutations.
Hypothesis Hlog : ∀ w c, P w → P (logged [c] w).
Hypothesis Hq : ∀ w key queued t, P w → P (queued_at key queued t w).
Hypothesis Hput : ∀ w note, P w → P (set_notes (<[id note := note]> (notes w)) w).

Lemma remote_call_preserves c : preserves P (await_supabase c ;; ret tt).
Proof.
  apply preserves_bind; [|intros; apply preserves_ret].
  apply await_supabase_preserves; auto.
Qed.

Lemma remote_call_now_preserves (c : Z → RemoteCall) :
  preserves P (now <- Date_now ;; await_supabase (c now) ;; ret tt).
Proof.
  apply preserves_bind; [by apply preserves_Date_now|]. intros now.
  apply remote_call_preserves.
Qed.

Lemma createNote_preserves input : preserves P (createNote input).
Proof.
  unfold createNote.
  apply preserves_bind; [by apply preserves_uuidv4|]. intros i.
  apply preserves_bind; [by apply preserves_Date_now|]. intros c.
  apply preserves_bind; [by apply preserves_Date_now|]. intros u.
  apply preserves_bind; [apply TK_saveNote_preserves; auto|]. intros _.
  apply preserves_bind; [|intros; apply preserves_ret].
  apply sync_or_queue_preserves; auto using remote_call_preserves.
Qed.

Lemma updateNote_preserves i input : preserves P (updateNote i input).
Proof.
  unfold updateNote.
  apply preserves_bind; [by apply TK_getAllNotes_preserves|]. intros l.
  destruct (find _ l); [|apply preserves_ret].
  apply preserves_bind; [by apply preserves_Date_now|]. intros u.
  apply preserves_bind; [apply TK_saveNote_preserves; auto|]. intros _.
  apply preserves_bind; [|intros; apply preserves_ret].
  apply sync_or_queue_preserves; auto.
  apply (remote_call_now_preserves (fun now => Update i _ _ _ now)).
Qed.

Lemma updateNoteColor_preserves i color' : preserves P (updateNoteColor i color').
Proof.
  unfold updateNoteColor.
  apply preserves_bind; [by apply TK_getAllNotes_preserves|]. intros l.
  destruct (find _ l); [|apply preserves_ret].
  apply preserves_bind; [by apply preserves_Date_now|]. intros u.
  apply preserves_bind; [apply TK_saveNote_preserves; auto|]. intros _.
  apply preserves_bind; [|intros; apply preserves_ret].
  apply sync_or_queue_preserves; auto.
  apply (remote_call_now_preserves (fun now => UpdateColor i color' now)).
Qed.

Hypothesis Hdel : ∀ w i, P w → P (set_notes (delete i (notes w)) w).

Lemma deleteNote_preserves i : preserves P (deleteNote i).
Proof.
  unfold deleteNote.
  apply preserves_bind; [apply TK_deleteNote_preserves; auto|]. intros _.
  apply preserves_bind; [|intros; apply preserves_ret].
  apply sync_or_queue_preserves; auto using remote_call_preserves.
Qed.
End Mutations.

Section Everything.
Hypothesis Hlog : ∀ w c, P w → P (logged [c] w).
Hypothesis Hclr : ∀ w, P w → P (set_syncQueue ∅ (keyGen w) w).
Hypothesis Hput : ∀ w note, P w → P (set_notes (<[id note := note]> (notes w)) w).

Lemma getAllNotes_preserves : preserves P getAllNotes.
Proof.
  unfold getAllNotes.
  apply preserves_bind; [by apply TK_getAllNotes_preserves|]. intros l.
  apply preserves_bind; [apply preserves_ask|]. intros configured.
  apply preserves_bind; [apply preserves_ask|]. intros online.
  apply preserves_if; [|apply preserves_ret].
  apply preserves_bind; [by apply syncToSupabase_preserves|]. intros _.
  apply preserves_bind; [by apply syncFromSupabase_preserves|]. intros _.
  by apply TK_getAllNotes_preserves.
Qed.
End Everything.
End Footprint.

(** ** Invariants of the service *)

Section ServiceInvariants.
Local Existing Instance TimeKeyedStore.indexedDBService.
Import NotesService.

(** X5. [deleteNote] is the only operation of the service that takes an
    id out of the 'notes' store: creating, updating, recolouring, pushing,
    pulling and reading keep every stored id, and [deleteNote] adds
    none. *)
Theorem only_deleteNote_removes_notes (w : World) (input : NoteInput) (i color' : string) :
  dom (notes w) ⊆ dom (notes (exec (createNote input) w))
  ∧ dom (notes w) ⊆ dom (notes (exec (updateNote i input) w))
  ∧ dom (notes w) ⊆ dom (notes (exec (updateNoteColor i color') w))
  ∧ dom (notes w) ⊆ dom (notes (exec syncToSupabase w))
  ∧ dom (notes w) ⊆ dom (notes (exec syncFromSupabase w))
  ∧ dom (notes w) ⊆ dom (notes (exec syncPendingOperations w))
  ∧ dom (notes w) ⊆ dom (notes (exec getAllNotes w))
  ∧ dom (notes (exec (deleteNote i) w)) ⊆ dom (notes w).
Proof.
  set (P := fun w' : World => dom (notes w) ⊆ dom (notes w')).
  assert (observes P) as HP.
  { intros w1 w2 _ Hn _ _. unfold P. by rewrite Hn. }
  assert (∀ w1 c, P w1 → P (logged [c] w1)) as Hlog by done.
  assert (∀ w1, P w1 → P (set_syncQueue ∅ (keyGen w1) w1)) as Hclr by done.
  assert (∀ w1 key queued t, P w1 → P (queued_at key queued t w1)) as Hq by done.
  assert (∀ w1 note, P w1 → P (set_notes (<[id note := note]> (notes w1)) w1)) as Hput.
  { intros w1 note Hw1. unfold P in *. simpl. rewrite dom_insert. set_solver. }
  assert (P w) as Hw by (unfold P; set_solver).
  repeat split; try (apply (exec_preserves P); [|done]).
  - by apply createNote_preserves.
  - by apply updateNote_preserves.
  - by apply updateNoteColor_preserves.
  - by apply syncToSupabase_preserves.
  - by apply syncFromSupabase_preserves.
  - by apply syncPendingOperations_preserves.
  - by apply getAllNotes_preserves.
  - apply (exec_preserves (fun w' => dom (notes w') ⊆ dom (notes w))); [|done].
    apply deleteNote_preserves; try done.
    + intros w1 w2 _ Hn _ _. by rewrite Hn.
    + intros w1 j Hw1. simpl. rewrite dom_delete.
      etrans; [apply subseteq_difference_l; reflexivity|exact Hw1].
Qed.

(** X6. The push never writes the 'notes' store and the pull never
    writes the sync queue. *)
Theorem push_and_pull_keep_apart (w : World) :
  notes (exec syncToSupabase w) = notes w
  ∧ notes (exec syncPendingOperations w) = notes w
  ∧ syncQueue (exec syncFromSupabase w) = syncQueue w.
Proof.
  split; [|split].
  - apply (exec_preserves (fun w' => notes w' = notes w)); [|done].
    apply syncToSupabase_preserves; try done.
    intros w1 w2 _ Hn _ _. by rewrite Hn.
  - apply (exec_preserves (fun w' => notes w' = notes w)); [|done].
    apply syncPendingOperations_preserves; try done.
    intros w1 w2 _ Hn _ _. by rewrite Hn.
  - apply (exec_preserves (fun w' => syncQueue w' = syncQueue w)); [|done].
    apply syncFromSupabase_preserves; try done.
    intros w1 w2 _ _ Hq _. by rewrite Hq.
Qed.

(** Sync never throws. *)
Lemma try_catch_ret_tt (m : M unit) w :
  try_catch m (fun _ => ret tt) w = (Val tt, exec m w).
Proof. unfold try_catch, exec, ret. by destruct (m w) as [[[]|?] ?]. Qed.

Lemma syncToSupabase_total w : syncToSupabase w = (Val tt, exec syncToSupabase w).
Proof.
  unfold exec, syncToSupabase. rewrite !bind_ask.
  destruct (negb _ || negb _); [done|]. by rewrite try_catch_ret_tt.
Qed.

Lemma syncFromSupabase_total w : syncFromSupabase w = (Val tt, exec syncFromSupabase w).
Proof.
  unfold exec, syncFromSupabase. rewrite !bind_ask.
  destruct (negb _ || negb _); [done|]. by rewrite try_catch_ret_tt.
Qed.


Lemma oserr_ret {A} (a : A) : only_storage_errors (ret a).
Proof. by intros w e. Qed.

Lemma oserr_bind {A B} (m : M A) (k : A → M B) :
  only_storage_errors m → (∀ a, only_storage_errors (k a)) →
  only_storage_errors (bind m k).
Proof.
  intros Hm Hk w e. unfold eval, bind. specialize (Hm w).
  unfold eval in Hm. destruct (m w) as [[a|e'] w1]; simpl in *.
  - apply Hk.
  - intros [= <-]. by apply Hm.
Qed.

Lemma oserr_try_catch {A} (m : M A) h :
  (∀ e, only_storage_errors (h e)) → only_storage_errors (try_catch m h).
Proof.
  intros Hh w e. unfold eval, try_catch.
  destruct (m w) as [[a|e'] w1]; simpl; [done|]. apply Hh.
Qed.

Lemma oserr_total {A} (m : M A) :
  (∀ w, ∃ a, eval m w = Val a) → only_storage_errors m.
Proof. intros Hm w e He. destruct (Hm w) as [a Ha]. congruence. Qed.

Lemma oserr_if {A} (b : bool) (m1 m2 : M A) :
  only_storage_errors m1 → only_storage_errors m2 →
  only_storage_errors (if b then m1 else m2).
Proof. by destruct b. Qed.

Lemma oserr_store_call {A} (m : M A) :
  (∀ w, ∃ w', m w = (Exn StorageError, w') ∨ ∃ a, m w = (Val a, w')) →
  only_storage_errors m.
Proof.
  intros Hm w e. unfold eval. destruct (Hm w) as [w' [->|[a ->]]]; simpl; congruence.
Qed.

Lemma oserr_TK_getAllNotes : only_storage_errors TimeKeyedStore.getAllNotes.
Proof.
  apply oserr_store_call. intros w. unfold TimeKeyedStore.getAllNotes. run_store.
  destruct (db w), (idbFault (host w) (idbCtr w)); simpl; eauto.
Qed.

Lemma oserr_TK_saveNote note : only_storage_errors (TimeKeyedStore.saveNote note).
Proof.
  apply oserr_store_call. intros w. unfold TimeKeyedStore.saveNote. run_store.
  destruct (db w), (idbFault (host w) (idbCtr w)); simpl; eauto.
Qed.

Lemma oserr_TK_deleteNote i : only_storage_errors (TimeKeyedStore.deleteNote i).
Proof.
  apply oserr_store_call. intros w. unfold TimeKeyedStore.deleteNote. run_store.
  destruct (db w), (idbFault (host w) (idbCtr w)); simpl; eauto.
Qed.

Lemma oserr_TK_addToSyncQueue op : only_storage_errors (TimeKeyedStore.addToSyncQueue op).
Proof.
  apply oserr_store_call. intros w. unfold TimeKeyedStore.addToSyncQueue. run_store.
  destruct (db w), (idbFault (host w) (idbCtr w)); simpl; eauto.
Qed.

Lemma oserr_sync_or_queue call queued : only_storage_errors (sync_or_queue call queued).
Proof.
  unfold sync_or_queue.
  assert (only_storage_errors
            (t <- Date_now ;; IndexedDB.addToSyncQueue (mkOp None queued t))) as Hqueue.
  { apply oserr_bind; [by intros w e|]. intros t. apply oserr_TK_addToSyncQueue. }
  apply oserr_bind; [by intros w e|]. intros configured.
  apply oserr_bind; [by intros w e|]. intros online.
  apply oserr_if; [by apply oserr_try_catch|].
  apply oserr_if; [done|apply oserr_ret].
Qed.

(** X7. A failing remote call never reaches the caller: [syncToSupabase],
    [syncFromSupabase] and [syncPendingOperations] always resolve, and
    [getAllNotes] and the four mutations can reject only with an error of
    the local store. *)
Theorem remote_failures_never_reach_the_caller
    (w : World) (input : NoteInput) (i color' : string) :
  eval syncToSupabase w = Val tt
  ∧ eval syncFromSupabase w = Val tt
  ∧ eval syncPendingOperations w = Val tt
  ∧ only_storage_errors getAllNotes
  ∧ only_storage_errors (createNote input)
  ∧ only_storage_errors (updateNote i input)
  ∧ only_storage_errors (deleteNote i)
  ∧ only_storage_errors (updateNoteColor i color').
Proof.
  unfold eval at 1 2 3. rewrite syncToSupabase_total, syncFromSupabase_total.
  split; [done|]. split; [done|]. split.
  { unfold syncPendingOperations. rewrite !bind_ask.
    destruct (negb _ || negb _); [done|]. by rewrite syncToSupabase_total. }
  assert (only_storage_errors syncToSupabase) as Hpush.
  { apply oserr_total. intros w1. exists tt. unfold eval. by rewrite syncToSupabase_total. }
  assert (only_storage_errors syncFromSupabase) as Hpull.
  { apply oserr_total. intros w1. exists tt. unfold eval. by rewrite syncFromSupabase_total. }
  split; [|split; [|split; [|split]]].
  - unfold getAllNotes.
    apply oserr_bind; [apply oserr_TK_getAllNotes|]. intros l.
    apply oserr_bind; [by intros w1 e|]. intros configured.
    apply oserr_bind; [by intros w1 e|]. intros online.
    apply oserr_if; [|apply oserr_ret].
    apply oserr_bind; [done|]. intros _.
    apply oserr_bind; [done|]. intros _. apply oserr_TK_getAllNotes.
  - unfold createNote.
    apply oserr_bind; [by intros w1 e|]. intros j.
    apply oserr_bind; [by intros w1 e|]. intros c.
    apply oserr_bind; [by intros w1 e|]. intros u.
    apply oserr_bind; [apply oserr_TK_saveNote|]. intros _.
    apply oserr_bind; [apply oserr_sync_or_queue|]. intros _. apply oserr_ret.
  - unfold updateNote.
    apply oserr_bind; [apply oserr_TK_getAllNotes|]. intros l.
    destruct (find _ l); [|apply oserr_ret].
    apply oserr_bind; [by intros w1 e|]. intros u.
    apply oserr_bind; [apply oserr_TK_saveNote|]. intros _.
    apply oserr_bind; [apply oserr_sync_or_queue|]. intros _. apply oserr_ret.
  - unfold deleteNote.
    apply oserr_bind; [apply oserr_TK_deleteNote|]. intros _.
    apply oserr_bind; [apply oserr_sync_or_queue|]. intros _. apply oserr_ret.
  - unfold updateNoteColor.
    apply oserr_bind; [apply oserr_TK_getAllNotes|]. intros l.
    destruct (find _ l); [|apply oserr_ret].
    apply oserr_bind; [by intros w1 e|]. intros u.
    apply oserr_bind; [apply oserr_TK_saveNote|]. intros _.
    apply oserr_bind; [apply oserr_sync_or_queue|]. intros _. apply oserr_ret.
Qed.
End ServiceInvariants.

(** ** More on the pull *)

Section PullProperties.
Local Existing Instance TimeKeyedStore.indexedDBService.
Import NotesService.

Lemma TK_getAllNotes_cases w :
  ¬ caught_in_store w →
  TimeKeyedStore.getAllNotes w = (Val (stored (notes w)), entered w)
  ∨ ∃ w1, TimeKeyedStore.getAllNotes w = (Exn StorageError, w1)
          ∧ notes w1 = notes w ∧ syncQueue w1 = syncQueue w
          ∧ remoteLog w1 = remoteLog w.
Proof.
  intros Hc. unfold TimeKeyedStore.getAllNotes, caught_in_store in *. run_store.
  destruct (db w) eqn:Edb, (idbFault (host w) (idbCtr w)) eqn:Ef; simpl;
    eauto 10; destruct Hc; auto.
Qed.

Lemma merge_not_older m0 note :
  preserves (fun w => not_older m0 (notes w)) (merge m0 note).
Proof.
  unfold merge.
  assert (observes (fun w => not_older m0 (notes w))) as HP.
  { intros w1 w2 _ Hn _ _. by rewrite Hn. }
  destruct (m0 !! id note) as [local|] eqn:Hl.
  - destruct (Z.gtb_spec (updatedAt note) (updatedAt local)) as [Hgt|Hle];
      [|apply preserves_ret].
    apply TK_saveNote_preserves; [done|].
    intros w Hw i n Hi. simpl. destruct (decide (i = id note)) as [->|Hne].
    + rewrite lookup_insert_eq. exists note. split; [done|].
      rewrite Hl in Hi. injection Hi as <-. lia.
    + rewrite lookup_insert_ne by done. by apply Hw.
  - apply TK_saveNote_preserves; [done|].
    intros w Hw i n Hi. simpl. rewrite lookup_insert_ne; [by apply Hw|].
    intros <-. congruence.
Qed.

(** X8. A pull never moves a note back: unless the store catches a fault
    of its read, every note stored before the pull is still stored after
    it, with an [updatedAt] that is not smaller. *)
Theorem pull_never_moves_a_note_back (w : World) :
  keyPath_ok (notes w) →
  ¬ caught_in_store w →
  not_older (notes w) (notes (exec syncFromSupabase w)).
Proof.
  intros Hkey Hc.
  assert (not_older (notes w) (notes w)) as Hrefl.
  { intros i n Hi. exists n. split; [done|lia]. }
  unfold syncFromSupabase. rewrite !exec_bind_ask.
  destruct (negb _ || negb _); [done|].
  rewrite exec_try_catch_ret, exec_bind_await.
  destruct (remote (host w) (length (remoteLog w))) as [|data error]; [done|].
  simpl. destruct error; [done|]. rewrite exec_bind_ret.
  destruct (TK_getAllNotes_cases (logged [SelectAll] w) Hc)
    as [Hget|(w1 & Hget & Hn & _)].
  - rewrite (exec_bind_val _ _ _ _ _ Hget).
    change (stored (notes (logged [SelectAll] w))) with (stored (notes w)).
    unfold stored. rewrite (js_Map_stored _ Hkey).
    apply (exec_preserves (fun w' => not_older (notes w) (notes w'))); [|done].
    apply preserves_for_of. intros note _. apply merge_not_older.
  - unfold exec. rewrite (bind_exn _ _ _ _ _ Hget). simpl. by rewrite Hn.
Qed.

(** The pull, when the fetch succeeds and no fault hits the store. *)
Lemma pull_exec w rows :
  isSupabaseConfigured (host w) = true →
  isOnline (host w) = true →
  no_faults (host w) →
  keyPath_ok (notes w) →
  remote (host w) (length (remoteLog w)) = Resolved (Some rows) false →
  exec syncFromSupabase w
  = exec (for_of rows (merge (notes w))) (entered (logged [SelectAll] w)).
Proof.
  intros Hcfg Hon Hnf Hkey Hrem.
  unfold syncFromSupabase. rewrite !exec_bind_ask, Hcfg, Hon. simpl.
  rewrite exec_try_catch_ret, exec_bind_await, Hrem. simpl.
  rewrite exec_bind_ret.
  rewrite (exec_bind_val _ _ _ _ _ (TK_getAllNotes_ok (logged [SelectAll] w) (Hnf _))).
  simpl notes. by rewrite (js_Map_stored _ Hkey).
Qed.

Lemma merge_loop_frame localMap rows w :
  host (exec (for_of rows (merge localMap)) w) = host w
  ∧ remoteLog (exec (for_of rows (merge localMap)) w) = remoteLog w
  ∧ (keyPath_ok (notes w) → keyPath_ok (notes (exec (for_of rows (merge localMap)) w))).
Proof.
  split; [|split].
  - apply (exec_preserves (fun w' => host w' = host w)); [|done].
    apply preserves_for_of. intros note _. apply merge_preserves; [|done].
    intros w1 w2 Hh _ _ _. by rewrite Hh.
  - apply (exec_preserves (fun w' => remoteLog w' = remoteLog w)); [|done].
    apply preserves_for_of. intros note _. apply merge_preserves; [|done].
    intros w1 w2 _ _ _ Hl. by rewrite Hl.
  - apply (exec_preserves (fun w' => keyPath_ok (notes w'))).
    apply preserves_for_of. intros note _. apply merge_preserves.
    + intros w1 w2 _ Hn _ _. by rewrite Hn.
    + intros w1 n Hw1. by apply keyPath_ok_insert.
Qed.

(** X9. The pull is idempotent: when the remote answers two pulls in a
    row with the same rows, the second leaves the 'notes' store as the first
    left it. *)
Theorem pull_is_idempotent (w : World) (rows : list Note) :
  isSupabaseConfigured (host w) = true →
  isOnline (host w) = true →
  no_faults (host w) →
  keyPath_ok (notes w) →
  remote (host w) (length (remoteLog w)) = Resolved (Some rows) false →
  remote (host w) (S (length (remoteLog w))) = Resolved (Some rows) false →
  NoDup (id <$> rows) →
  notes (exec (syncFromSupabase ;; syncFromSupabase) w)
  = notes (exec syncFromSupabase w).
Proof.
  intros Hcfg Hon Hnf Hkey Hrem1 Hrem2 Hnd.
  unfold exec at 1. rewrite (bind_val _ _ _ _ _ (syncFromSupabase_total w)).
  fold (exec syncFromSupabase (exec syncFromSupabase w)).
  set (w1 := exec syncFromSupabase w).
  assert (w1 = exec (for_of rows (merge (notes w))) (entered (logged [SelectAll] w)))
    as Hw1 by by apply pull_exec.
  destruct (merge_loop_frame (notes w) rows (entered (logged [SelectAll] w)))
    as (Hh & Hl & Hk). rewrite <- Hw1 in Hh, Hl, Hk. simpl in Hh, Hl, Hk.
  destruct (merge_loop (notes w) rows (entered (logged [SelectAll] w)) Hnf Hnd)
    as [Hin Hout]. rewrite <- Hw1 in Hin, Hout. simpl in Hin, Hout.
  assert (no_faults (host w1)) as Hnf1 by by rewrite Hh.
  assert (keyPath_ok (notes w1)) as Hkey1 by by apply Hk.
  rewrite (pull_exec w1 rows); [|by rewrite Hh|by rewrite Hh|done|done|].
  2:{ rewrite Hh, Hl, length_app. simpl.
      by replace (length (remoteLog w) + 1)%nat with (S (length (remoteLog w))) by lia. }
  destruct (merge_loop (notes w1) rows (entered (logged [SelectAll] w1)) Hnf1 Hnd)
    as [Hin2 Hout2]. simpl in Hin2, Hout2.
  apply map_eq. intros i.
  destruct (decide (i ∈ id <$> rows)) as [Hi|Hi].
  - apply list_elem_of_fmap in Hi as (r & -> & Hr).
    rewrite (Hin2 r Hr). unfold adopts. rewrite (Hin r Hr). unfold adopts.
    destruct (notes w !! id r) as [local|] eqn:El.
    + destruct (Z.gtb_spec (updatedAt r) (updatedAt local)) as [Hgt|Hle].
      * by rewrite Z.gtb_ltb, Z.ltb_irrefl.
      * destruct (Z.gtb_spec (updatedAt r) (updatedAt local)); [lia|done].
    + by rewrite Z.gtb_ltb, Z.ltb_irrefl.
  - by rewrite (Hout2 i Hi).
Qed.
End PullProperties.

(** ** The service while online *)

Section OnlineProperties.
Local Existing Instance TimeKeyedStore.indexedDBService.
Import NotesService.

Lemma queue_getAll_empty : queue_getAll ∅ = [].
Proof. unfold queue_getAll, queue_entries. by rewrite map_to_list_empty. Qed.

Lemma drain_resolved queue :
  ∀ w,
    Forall (fun op => pushable op = true) queue →
    (∀ j, (j < length queue)%nat →
          remote (host w) (length (remoteLog w) + j) ≠ Rejected) →
    for_of queue push w = (Val tt, logged (call_of <$> queue) w).
Proof.
  induction queue as [|op queue IH]; intros w Hv Hall.
  { simpl. by rewrite logged_nil. }
  simpl for_of. apply Forall_cons in Hv as [Hop Hv].
  assert (remote (host w) (length (remoteLog w)) ≠ Rejected) as H0.
  { specialize (Hall 0%nat). rewrite Nat.add_0_r in Hall. apply Hall. simpl. lia. }
  rewrite (bind_val _ _ _ _ _ (push_resolved op w Hop H0)).
  rewrite IH; [by rewrite logged_cons|done|].
  intros j Hj. simpl. rewrite length_app. simpl.
  replace (length (remoteLog w) + 1 + j)%nat
    with (length (remoteLog w) + S j)%nat by lia.
  apply Hall. simpl. lia.
Qed.

(** The drain when every row can be built, every call resolves and no
    fault hits the store. *)
Lemma drain_exec w :
  isSupabaseConfigured (host w) = true →
  isOnline (host w) = true →
  no_faults (host w) →
  Forall (fun op => pushable op = true) (queue_getAll (syncQueue w)) →
  (∀ j, (j < length (queue_getAll (syncQueue w)))%nat →
        remote (host w) (length (remoteLog w) + j) ≠ Rejected) →
  exec syncToSupabase w
  = set_syncQueue ∅ (keyGen w)
      (entered (logged (call_of <$> queue_getAll (syncQueue w)) (entered w))).
Proof.
  intros Hcfg Hon Hnf Hv Hall.
  unfold syncToSupabase. rewrite !exec_bind_ask, Hcfg, Hon. simpl.
  rewrite exec_try_catch_ret.
  rewrite (exec_bind_val _ _ _ _ _ (TK_getSyncQueue_ok w (Hnf _))).
  rewrite (exec_bind_val _ _ _ _ _
             (drain_resolved (queue_getAll (syncQueue w)) (entered w) Hv Hall)).
  unfold exec. by rewrite TK_clearSyncQueue_ok by apply Hnf.
Qed.

(** X10. Flush on reconnection: when the date of every queued entry can
    be formatted and no call of the drain rejects, the push replays the
    whole queue in the order [getSyncQueue] gives and empties it, and a
    second push right after it makes no remote call. *)
Theorem reconnection_flush (w : World) :
  isSupabaseConfigured (host w) = true →
  isOnline (host w) = true →
  no_faults (host w) →
  Forall (fun op => pushable op = true) (queue_getAll (syncQueue w)) →
  (∀ j, (j < length (queue_getAll (syncQueue w)))%nat →
        remote (host w) (length (remoteLog w) + j) ≠ Rejected) →
  syncQueue (exec syncToSupabase w) = ∅
  ∧ remoteLog (exec syncToSupabase w)
    = remoteLog w ++ (call_of <$> queue_getAll (syncQueue w))
  ∧ remoteLog (exec (syncToSupabase ;; syncToSupabase) w)
    = remoteLog (exec syncToSupabase w)
  ∧ syncQueue (exec (syncToSupabase ;; syncToSupabase) w) = ∅.
Proof.
  intros Hcfg Hon Hnf Hv Hall.
  unfold exec at 3 5. rewrite (bind_val _ _ _ _ _ (syncToSupabase_total w)).
  fold (exec syncToSupabase (exec syncToSupabase w)).
  rewrite (drain_exec w Hcfg Hon Hnf Hv Hall).
  set (w1 := set_syncQueue ∅ (keyGen w) _).
  assert (queue_getAll (syncQueue w1) = []) as Hq by apply queue_getAll_empty.
  rewrite (drain_exec w1 Hcfg Hon Hnf).
  - rewrite Hq. simpl. by rewrite app_nil_r.
  - rewrite Hq. constructor.
  - rewrite Hq. simpl. lia.
Qed.

(** *** Mutations while online *)

Lemma sync_or_queue_resolved c queued w :
  isSupabaseConfigured (host w) = true →
  isOnline (host w) = true →
  remote (host w) (length (remoteLog w)) ≠ Rejected →
  sync_or_queue (await_supabase c ;; ret tt) queued w = (Val tt, logged [c] w).
Proof.
  intros Hcfg Hon Hr. unfold sync_or_queue. rewrite !bind_ask, Hcfg, Hon. cbn [andb].
  unfold try_catch, bind, await_supabase.
  by destruct (remote (host w) (length (remoteLog w))).
Qed.

Lemma sync_or_queue_rejected c queued w :
  isSupabaseConfigured (host w) = true →
  isOnline (host w) = true →
  remote (host w) (length (remoteLog w)) = Rejected →
  idbFault (host w) (idbCtr w) = NoFault →
  sync_or_queue (await_supabase c ;; ret tt) queued w
  = (Val tt,
     queued_at (clock (host w) (S (tick w))) queued (clock (host w) (tick w))
               (Date_now (Date_now (entered (logged [c] w))).2).2).
Proof.
  intros Hcfg Hon Hr Hok. unfold sync_or_queue. rewrite !bind_ask, Hcfg, Hon. cbn [andb].
  unfold try_catch. unfold bind at 1. unfold await_supabase. rewrite Hr.
  rewrite bind_Date_now. by rewrite TK_addToSyncQueue_ok.
Qed.

(** X11. [createNote] while online: the note is stored, one insert of
    it is sent, and the operation is queued exactly when that call
    rejects. *)
Theorem online_create (w : World) (input : NoteInput) :
  isSupabaseConfigured (host w) = true →
  isOnline (host w) = true →
  no_faults (host w) →
  eval (createNote input) w = Val (created input w)
  ∧ notes (exec (createNote input) w)
    = <[id (created input w) := created input w]> (notes w)
  ∧ remoteLog (exec (createNote input) w)
    = remoteLog w ++ [Insert (id (created input w)) (in_title input) (in_content input)
                             (in_color input) (createdAt (created input w))]
  ∧ syncQueue (exec (createNote input) w)
    = match remote (host w) (length (remoteLog w)) with
      | Rejected => <[create_key w := create_entry input w]> (syncQueue w)
      | Resolved _ _ => syncQueue w
      end.
Proof.
  intros Hcfg Hon Hnf. unfold eval, exec, createNote.
  rewrite bind_uuidv4, !bind_Date_now.
  erewrite bind_val; [|apply TK_saveNote_ok; apply Hnf].
  destruct (remote (host w) (length (remoteLog w))) as [|d e] eqn:Hr.
  - erewrite bind_val; [|apply sync_or_queue_rejected; [done|done|done|apply Hnf] ].
    done.
  - erewrite bind_val; [|apply sync_or_queue_resolved; [done|done|] ].
    + done.
    + simpl. by rewrite Hr.
Qed.

Lemma sync_or_queue_now_resolved (c : Z → RemoteCall) queued w :
  isSupabaseConfigured (host w) = true →
  isOnline (host w) = true →
  remote (host w) (length (remoteLog w)) ≠ Rejected →
  sync_or_queue (now <- Date_now ;; await_supabase (c now) ;; ret tt) queued w
  = (Val tt, logged [c (clock (host w) (tick w))] (Date_now w).2).
Proof.
  intros Hcfg Hon Hr. unfold sync_or_queue. rewrite !bind_ask, Hcfg, Hon. cbn [andb].
  unfold try_catch. rewrite bind_Date_now. unfold bind, await_supabase. simpl.
  by destruct (remote (host w) (length (remoteLog w))).
Qed.

Lemma sync_or_queue_now_rejected (c : Z → RemoteCall) queued w :
  isSupabaseConfigured (host w) = true →
  isOnline (host w) = true →
  remote (host w) (length (remoteLog w)) = Rejected →
  idbFault (host w) (idbCtr w) = NoFault →
  sync_or_queue (now <- Date_now ;; await_supabase (c now) ;; ret tt) queued w
  = (Val tt,
     queued_at (clock (host w) (2 + tick w)) queued (clock (host w) (1 + tick w))
       (Date_now (Date_now (entered (logged [c (clock (host w) (tick w))]
                                            (Date_now w).2))).2).2).
Proof.
  intros Hcfg Hon Hr Hok. unfold sync_or_queue. rewrite !bind_ask, Hcfg, Hon. cbn [andb].
  unfold try_catch. rewrite bind_Date_now. unfold bind at 1. unfold await_supabase.
  simpl. rewrite Hr. rewrite bind_Date_now. by rewrite TK_addToSyncQueue_ok.
Qed.

(** X12. [deleteNote] while online: the note is deleted locally, one
    delete is sent, and the operation is queued exactly when that call
    rejects. *)
Theorem online_delete (w : World) (i : string) :
  isSupabaseConfigured (host w) = true →
  isOnline (host w) = true →
  no_faults (host w) →
  eval (deleteNote i) w = Val true
  ∧ notes (exec (deleteNote i) w) = delete i (notes w)
  ∧ remoteLog (exec (deleteNote i) w) = remoteLog w ++ [Delete i]
  ∧ syncQueue (exec (deleteNote i) w)
    = match remote (host w) (length (remoteLog w)) with
      | Rejected =>
          <[clock (host w) (1 + tick w) :=
              mkOp (Some (clock (host w) (1 + tick w))) (OpDelete i)
                   (clock (host w) (tick w))]> (syncQueue w)
      | Resolved _ _ => syncQueue w
      end.
Proof.
  intros Hcfg Hon Hnf. unfold eval, exec, deleteNote.
  erewrite bind_val; [|apply TK_deleteNote_ok; apply Hnf].
  destruct (remote (host w) (length (remoteLog w))) as [|d e] eqn:Hr.
  - erewrite bind_val; [|apply sync_or_queue_rejected; [done|done|done|apply Hnf] ].
    done.
  - erewrite bind_val; [|apply sync_or_queue_resolved; [done|done|] ].
    + done.
    + simpl. by rewrite Hr.
Qed.

(** X13. [updateNote] of a stored note while online: the note is
    replaced locally, keeping its [createdAt], one update is sent, and the
    operation is queued exactly when that call rejects. *)
Theorem online_update (w : World) (i : string) (input : NoteInput) (existing : Note) :
  isSupabaseConfigured (host w) = true →
  isOnline (host w) = true →
  no_faults (host w) →
  keyPath_ok (notes w) →
  notes w !! i = Some existing →
  eval (updateNote i input) w = Val (Some (updated i input existing w))
  ∧ notes (exec (updateNote i input) w) = <[i := updated i input existing w]> (notes w)
  ∧ remoteLog (exec (updateNote i input) w)
    = remoteLog w ++ [Update i (in_title input) (in_content input) (in_color input)
                             (clock (host w) (1 + tick w))]
  ∧ syncQueue (exec (updateNote i input) w)
    = match remote (host w) (length (remoteLog w)) with
      | Rejected =>
          <[clock (host w) (3 + tick w) :=
              mkOp (Some (clock (host w) (3 + tick w)))
                   (OpUpdate (updated i input existing w))
                   (clock (host w) (2 + tick w))]> (syncQueue w)
      | Resolved _ _ => syncQueue w
      end.
Proof.
  intros Hcfg Hon Hnf Hkey Hi. unfold eval, exec, updateNote.
  erewrite bind_val; [|apply TK_getAllNotes_ok; apply Hnf].
  rewrite (find_stored _ _ Hkey), Hi. rewrite bind_Date_now.
  erewrite bind_val; [|apply TK_saveNote_ok; apply Hnf].
  destruct (remote (host w) (length (remoteLog w))) as [|d e] eqn:Hr.
  - erewrite bind_val;
      [|apply (sync_or_queue_now_rejected (fun now => Update i _ _ _ now));
        [done|done|done|apply Hnf] ].
    done.
  - erewrite bind_val;
      [|apply (sync_or_queue_now_resolved (fun now => Update i _ _ _ now)); [done|done|] ].
    + done.
    + simpl. by rewrite Hr.
Qed.

(** X20. [updateNoteColor] of a stored note while online: the note is
    stored with the new colour, keeping its other fields and its
    [createdAt], one update of the colour alone is sent, and when that call
    rejects the whole recoloured note is queued as an update. *)
Theorem online_recolor (w : World) (i color' : string) (existing : Note) :
  isSupabaseConfigured (host w) = true →
  isOnline (host w) = true →
  no_faults (host w) →
  keyPath_ok (notes w) →
  notes w !! i = Some existing →
  eval (updateNoteColor i color') w = Val true
  ∧ notes (exec (updateNoteColor i color') w)
    = <[i := recolored color' existing w]> (notes w)
  ∧ remoteLog (exec (updateNoteColor i color') w)
    = remoteLog w ++ [UpdateColor i color' (clock (host w) (1 + tick w))]
  ∧ syncQueue (exec (updateNoteColor i color') w)
    = match remote (host w) (length (remoteLog w)) with
      | Rejected =>
          <[clock (host w) (3 + tick w) :=
              mkOp (Some (clock (host w) (3 + tick w)))
                   (OpUpdate (recolored color' existing w))
                   (clock (host w) (2 + tick w))]> (syncQueue w)
      | Resolved _ _ => syncQueue w
      end.
Proof.
  intros Hcfg Hon Hnf Hkey Hi. unfold eval, exec, updateNoteColor.
  pose proof (Hkey i existing Hi) as Hid. simpl in Hid.
  erewrite bind_val; [|apply TK_getAllNotes_ok; apply Hnf].
  rewrite (find_stored _ _ Hkey), Hi. rewrite bind_Date_now.
  erewrite bind_val; [|apply TK_saveNote_ok; apply Hnf].
  destruct (remote (host w) (length (remoteLog w))) as [|d e] eqn:Hr.
  - erewrite bind_val;
      [|apply (sync_or_queue_now_rejected (fun now => UpdateColor i color' now));
        [done|done|done|apply Hnf] ].
    simpl. unfold recolored. by rewrite Hid.
  - erewrite bind_val;
      [|apply (sync_or_queue_now_resolved (fun now => UpdateColor i color' now));
        [done|done|] ].
    + simpl. unfold recolored. by rewrite Hid.
    + simpl. by rewrite Hr.
Qed.
End OnlineProperties.

(** ** Order of the sync queue *)

Lemma queue_getAll_insert_last (q : gmap Z SyncOperation) k op :
  (∀ k', is_Some (q !! k') → (k' < k)%Z) →
  queue_getAll (<[k := op]> q) = queue_getAll q ++ [op].
Proof.
  intros Hlt.
  assert (q !! k = None) as Hfree.
  { destruct (q !! k) eqn:E; [|done].
    assert (k < k)%Z by (apply Hlt; by rewrite E). lia. }
  unfold queue_getAll.
  assert (queue_entries (<[k := op]> q) = queue_entries q ++ [(k, op)]) as ->;
    [|by rewrite fmap_app].
  apply (StronglySorted_unique_strong key_le).
  - intros [k1 o1] [k2 o2] H1 H2 Hle1 Hle2. unfold key_le in *. simpl in *.
    assert (k1 = k2) as -> by lia. f_equal.
    rewrite queue_entries_perm in H1. apply elem_of_map_to_list in H1.
    apply elem_of_app in H2 as [H2|H2].
    + rewrite queue_entries_perm in H2. apply elem_of_map_to_list in H2.
      assert (k2 ≠ k) as Hne.
      { intros ->. congruence. }
      rewrite lookup_insert_ne in H1 by done. congruence.
    + apply list_elem_of_singleton in H2. injection H2 as -> ->.
      rewrite lookup_insert_eq in H1. congruence.
  - apply queue_entries_sorted.
  - apply StronglySorted_app_2.
    + intros [k1 o1] x2 H1 H2. apply list_elem_of_singleton in H2 as ->.
      rewrite queue_entries_perm in H1. apply elem_of_map_to_list in H1.
      unfold key_le. simpl. assert (k1 < k)%Z; [|lia]. apply Hlt. by rewrite H1.
    + apply queue_entries_sorted.
    + repeat constructor.
  - rewrite !queue_entries_perm, map_to_list_insert by done.
    rewrite (Permutation_app_comm _ [(k, op)]). done.
Qed.

(** X14. The autoIncrement queue is first in, first out: an operation
    added without a key is read back last, under the key the generator
    held, and adding and clearing keep the generator ahead of every key in
    use. *)
Theorem auto_increment_queue_is_fifo (w : World) (op : SyncOperation) :
  idbFault (host w) (idbCtr w) = NoFault →
  idbFault (host w) (S (idbCtr w)) = NoFault →
  opId op = None →
  keyGen_ahead w →
  eval (AutoIncrementStore.addToSyncQueue op ;; AutoIncrementStore.getSyncQueue) w
  = Val (queue_getAll (syncQueue w)
         ++ [mkOp (Some (keyGen w)) (operation op) (timestamp op)])
  ∧ keyGen_ahead (exec (AutoIncrementStore.addToSyncQueue op) w)
  ∧ keyGen_ahead (exec AutoIncrementStore.clearSyncQueue w).
Proof.
  intros Hok Hok' Hid Hahead.
  assert (AutoIncrementStore.addToSyncQueue op w
          = (Val tt, set_syncQueue
                       (<[keyGen w := mkOp (Some (keyGen w)) (operation op) (timestamp op)]>
                          (syncQueue w)) (keyGen w + 1) (entered w))) as Hadd.
  { unfold AutoIncrementStore.addToSyncQueue, bind, idb_enter, AutoIncrementStore.init,
      AutoIncrementStore.ensureDB, idb_transaction, idb_request, queue_add, ret. simpl.
    rewrite Hok. simpl. by rewrite Hid. }
  split; [|split].
  - unfold eval. rewrite (bind_val _ _ _ _ _ Hadd).
    rewrite AI_getSyncQueue_ok by done. simpl.
    by rewrite queue_getAll_insert_last.
  - unfold exec. rewrite Hadd. intros k. simpl.
    destruct (decide (k = keyGen w)) as [->|Hne]; [lia|].
    rewrite lookup_insert_ne by done. intros Hk. specialize (Hahead k Hk). lia.
  - unfold exec. rewrite AI_clearSyncQueue_ok by done. intros k. simpl.
    rewrite lookup_empty. by intros [? ?].
Qed.

(** X15. The queue keyed by [Date.now()] is first in, first out as long
    as the clock reads later than every key in use: the operation added is
    then read back last. *)
Theorem time_keyed_queue_is_fifo_while_clock_advances (w : World) (op : SyncOperation) :
  idbFault (host w) (idbCtr w) = NoFault →
  idbFault (host w) (S (idbCtr w)) = NoFault →
  (∀ k, is_Some (syncQueue w !! k) → (k < clock (host w) (tick w))%Z) →
  eval (TimeKeyedStore.addToSyncQueue op ;; TimeKeyedStore.getSyncQueue) w
  = Val (queue_getAll (syncQueue w)
         ++ [mkOp (Some (clock (host w) (tick w))) (operation op) (timestamp op)]).
Proof.
  intros Hok Hok' Hclock. unfold eval.
  rewrite (bind_val _ _ _ _ _ (TK_addToSyncQueue_ok w Hok op)).
  rewrite TK_getSyncQueue_ok by done. simpl.
  by rewrite queue_getAll_insert_last.
Qed.

(** ** The pull of the earlier notes service *)

Section EarlierPull.
Local Existing Instance AutoIncrementStore.indexedDBService.

Lemma AI_delete_loop l :
  ∀ w, no_faults (host w) →
    ∃ w', for_of l (fun note => IndexedDB.deleteNote (id note)) w = (Val tt, w')
          ∧ host w' = host w
          ∧ notes w' = foldl (fun m n => delete (id n) m) (notes w) l.
Proof.
  induction l as [|x l IH]; intros w Hnf; cbn [for_of].
  { by exists w. }
  rewrite (bind_val _ _ _ _ _ (AI_deleteNote_ok w (Hnf _) (id x))).
  destruct (IH (set_notes (delete (id x) (notes w)) (entered w)) Hnf)
    as (w' & Hrun & Hh & Hn).
  exists w'. cbv beta. by rewrite Hrun.
Qed.

Lemma AI_save_loop l :
  ∀ w, no_faults (host w) →
    ∃ w', for_of l IndexedDB.saveNote w = (Val tt, w')
          ∧ host w' = host w
          ∧ notes w' = foldl (fun m n => <[id n := n]> m) (notes w) l.
Proof.
  induction l as [|x l IH]; intros w Hnf; cbn [for_of].
  { by exists w. }
  rewrite (bind_val _ _ _ _ _ (AI_saveNote_ok w (Hnf _) x)).
  destruct (IH (set_notes (<[id x := x]> (notes w)) (entered w)) Hnf)
    as (w' & Hrun & Hh & Hn).
  exists w'. cbv beta. by rewrite Hrun.
Qed.

Lemma foldl_delete_lookup (l : list Note) (m : gmap string Note) k :
  foldl (fun m n => delete (id n) m) m l !! k
  = if decide (k ∈ id <$> l) then None else m !! k.
Proof.
  revert m. induction l as [|x l IH]; intros m.
  { rewrite decide_False; [done|]. intros H. by apply elem_of_nil in H. }
  cbn [foldl]. rewrite IH. rewrite fmap_cons.
  destruct (decide (k ∈ id <$> l)) as [Hin|Hnin].
  - rewrite decide_True; [done|]. by right.
  - destruct (decide (k = id x)) as [->|Hne].
    + rewrite decide_True by by left. apply lookup_delete_eq.
    + rewrite decide_False.
      * by rewrite lookup_delete_ne.
      * intros H. apply elem_of_cons in H as [?|?]; done.
Qed.

Lemma delete_all_stored m :
  keyPath_ok m → foldl (fun m n => delete (id n) m) m (stored m) = ∅.
Proof.
  intros Hkey. apply map_eq. intros k. rewrite foldl_delete_lookup, lookup_empty.
  case_decide as H; [done|].
  destruct (m !! k) as [n|] eqn:E; [|done].
  exfalso. apply H. apply list_elem_of_fmap. exists n.
  split; [by rewrite (Hkey k n E)|]. apply elem_of_stored. by exists k.
Qed.

(** X16. The pull of the earlier notes service mirrors the remote: when
    the fetch succeeds and the store calls go through, the 'notes' store
    afterwards holds exactly the fetched rows, and when the fetch fails the
    store is left as it was. *)
Theorem earlier_pull_mirrors_the_remote (w : World) :
  isSupabaseConfigured (host w) = true →
  isOnline (host w) = true →
  no_faults (host w) →
  keyPath_ok (notes w) →
  notes (exec EarlierNotesService.syncFromSupabase w)
  = match remote (host w) (length (remoteLog w)) with
    | Resolved data false => js_Map (EarlierNotesService.row <$> default [] data)
    | _ => notes w
    end.
Proof.
  intros Hcfg Hon Hnf Hkey.
  unfold EarlierNotesService.syncFromSupabase.
  rewrite !exec_bind_ask, Hcfg, Hon. simpl.
  rewrite exec_try_catch_ret, exec_bind_await.
  destruct (remote (host w) (length (remoteLog w))) as [|data error]; [done|].
  simpl. destruct error; [done|]. rewrite exec_bind_ret.
  rewrite (exec_bind_val _ _ _ _ _ (AI_getAllNotes_ok (logged [SelectAll] w) (Hnf _))).
  destruct (AI_delete_loop (stored (notes w)) (entered (logged [SelectAll] w)) Hnf)
    as (w1 & Hrun1 & Hh1 & Hn1).
  simpl notes. rewrite (exec_bind_val _ _ _ _ _ Hrun1).
  simpl in Hn1. rewrite (delete_all_stored _ Hkey) in Hn1.
  assert (no_faults (host w1)) as Hnf1 by by rewrite Hh1.
  destruct (AI_save_loop (EarlierNotesService.row <$> default [] data) w1 Hnf1)
    as (w2 & Hrun2 & _ & Hn2).
  change (@IndexedDB.saveNote _) with AutoIncrementStore.saveNote in Hrun2.
  unfold exec. cbv beta. rewrite Hrun2. simpl. by rewrite Hn2, Hn1.
Qed.
End EarlierPull.

Section ReadProperties.
Local Existing Instance TimeKeyedStore.indexedDBService.
Import NotesService.

(** X18. Reading while offline or without a remote: [getAllNotes] and
    [syncPendingOperations] make no remote call and write neither store,
    and [getAllNotes] resolves to the stored notes. *)
Theorem reads_stay_local (w : World) :
  isSupabaseConfigured (host w) && isOnline (host w) = false →
  untouched getAllNotes w
  ∧ untouched syncPendingOperations w
  ∧ (idbFault (host w) (idbCtr w) = NoFault →
     eval getAllNotes w = Val (stored (notes w))).
Proof.
  intros Hoff.
  assert (∀ w0, observes (fun w' => notes w' = notes w0 ∧ syncQueue w' = syncQueue w0
                            ∧ remoteLog w' = remoteLog w0)) as HP.
  { intros w0 w1 w2 _ Hn Hq Hl. by rewrite Hn, Hq, Hl. }
  split; [|split].
  - unfold untouched, exec, getAllNotes.
    pose proof (TK_getAllNotes_preserves _ (HP w) w) as Hget.
    destruct (TimeKeyedStore.getAllNotes w) as [[l|e] w1] eqn:E.
    + rewrite (bind_val _ _ _ _ _ E). rewrite !bind_ask.
      replace (host w1) with (host w).
      2:{ symmetry.
          assert (observes (fun w' => host w' = host w)) as Hobs
            by (intros ? ? Hh _ _ _ ?; by rewrite Hh).
          pose proof (TK_getAllNotes_preserves _ Hobs w eq_refl) as Hh.
          by rewrite E in Hh. }
      rewrite Hoff. simpl. simpl in Hget. by apply Hget.
    + rewrite (bind_exn _ _ _ _ _ E). simpl. simpl in Hget. by apply Hget.
  - unfold untouched, exec, syncPendingOperations. rewrite !bind_ask.
    apply andb_false_iff in Hoff as [->| ->]; simpl; [done|].
    by rewrite orb_true_r.
  - intros Hok. unfold eval, getAllNotes.
    rewrite (bind_val _ _ _ _ _ (TK_getAllNotes_ok w Hok)). rewrite !bind_ask.
    cbn [host entered]. by rewrite Hoff.
Qed.

Lemma getAllNotes_online w rows :
  isSupabaseConfigured (host w) = true →
  isOnline (host w) = true →
  no_faults (host w) →
  keyPath_ok (notes w) →
  Forall (fun op => pushable op = true) (queue_getAll (syncQueue w)) →
  (∀ j, (j < length (queue_getAll (syncQueue w)))%nat →
        remote (host w) (length (remoteLog w) + j) ≠ Rejected) →
  remote (host w) (length (remoteLog w) + length (queue_getAll (syncQueue w)))
  = Resolved (Some rows) false →
  let w2 := set_syncQueue ∅ (keyGen w)
              (entered (logged (call_of <$> queue_getAll (syncQueue w))
                               (entered (entered w)))) in
  let w3 := exec (for_of rows (merge (notes w))) (entered (logged [SelectAll] w2)) in
  getAllNotes w = (Val (stored (notes w3)), entered w3).
Proof.
  intros Hcfg Hon Hnf Hkey Hv Hall Hrows w2 w3.
  unfold getAllNotes.
  rewrite (bind_val _ _ _ _ _ (TK_getAllNotes_ok w (Hnf _))). rewrite !bind_ask.
  cbn [host entered]. rewrite Hcfg, Hon. cbn [andb].
  rewrite (bind_val _ _ _ _ _ (syncToSupabase_total (entered w))).
  rewrite (drain_exec (entered w) Hcfg Hon Hnf Hv Hall). fold w2.
  rewrite (bind_val _ _ _ _ _ (syncFromSupabase_total w2)).
  rewrite (pull_exec w2 rows Hcfg Hon Hnf Hkey).
  2:{ simpl. by rewrite length_app, length_fmap. }
  change (notes w2) with (notes w). fold w3.
  destruct (merge_loop_frame (notes w) rows (entered (logged [SelectAll] w2)))
    as (Hh & _ & _). fold w3 in Hh. simpl in Hh.
  apply TK_getAllNotes_ok. rewrite Hh. apply Hnf.
Qed.

(** X19. [getAllNotes] while online, when no store call fails, the date
    of every queued entry can be formatted, no call of the push rejects
    and the fetch succeeds with rows of distinct ids: the queued
    operations are replayed first, then the rows are fetched and merged,
    the queue is left empty, and the list returned is that of the store
    after the merge. *)
Theorem online_read_pushes_then_pulls (w : World) (rows : list Note) :
  isSupabaseConfigured (host w) = true →
  isOnline (host w) = true →
  no_faults (host w) →
  keyPath_ok (notes w) →
  Forall (fun op => pushable op = true) (queue_getAll (syncQueue w)) →
  (∀ j, (j < length (queue_getAll (syncQueue w)))%nat →
        remote (host w) (length (remoteLog w) + j) ≠ Rejected) →
  remote (host w) (length (remoteLog w) + length (queue_getAll (syncQueue w)))
  = Resolved (Some rows) false →
  NoDup (id <$> rows) →
  eval getAllNotes w = Val (stored (notes (exec getAllNotes w)))
  ∧ remoteLog (exec getAllNotes w)
    = remoteLog w ++ (call_of <$> queue_getAll (syncQueue w)) ++ [SelectAll]
  ∧ syncQueue (exec getAllNotes w) = ∅
  ∧ (∀ r, r ∈ rows →
       notes (exec getAllNotes w) !! id r
       = if adopts (notes w) r then Some r else notes w !! id r)
  ∧ (∀ i, i ∉ id <$> rows → notes (exec getAllNotes w) !! i = notes w !! i).
Proof.
  intros Hcfg Hon Hnf Hkey Hv Hall Hrows Hnd.
  pose proof (getAllNotes_online w rows Hcfg Hon Hnf Hkey Hv Hall Hrows) as Hrun.
  cbv zeta in Hrun. unfold eval, exec. rewrite Hrun. cbn [fst snd].
  set (w2 := set_syncQueue ∅ (keyGen w) _) in *.
  set (w1 := entered (logged [SelectAll] w2)).
  destruct (merge_loop_frame (notes w) rows w1) as (_ & Hl & _).
  destruct (merge_loop (notes w) rows w1 Hnf Hnd) as [Hin Hout].
  split; [done|]. split; [|split; [|split]].
  - cbn [remoteLog entered]. rewrite Hl. simpl. by rewrite <- app_assoc.
  - cbn [syncQueue entered].
    apply (exec_preserves (fun w' => syncQueue w' = ∅)); [|done].
    apply preserves_for_of. intros note _. apply merge_preserves; [|done].
    intros ? ? _ _ Hq _ ?. by rewrite Hq.
  - intros r Hr. cbn [notes entered]. by rewrite (Hin r Hr).
  - intros i Hi. cbn [notes entered]. by rewrite (Hout i Hi).
Qed.
End ReadProperties.

(** ** The store kept in [localStorage] *)

Section LocalStorageFacts.
Import LocalStorageStore.

Lemma findIndex_Some i l k :
  findIndex i l = Some k → ∃ old, l !! k = Some old ∧ id old = i.
Proof.
  unfold findIndex. destruct (list_find _ l) as [[k' old]|] eqn:E; [|done].
  intros [= <-]. apply list_find_Some in E as (Hk & Hid & _). by exists old.
Qed.

Lemma findIndex_None i l :
  findIndex i l = None → i ∉ id <$> l.
Proof.
  unfold findIndex. destruct (list_find _ l) as [[k' old]|] eqn:E; [done|].
  intros _. apply list_find_None in E. intros Hin.
  apply list_elem_of_fmap in Hin as (n & -> & Hn).
  rewrite Forall_forall in E. by apply (E n Hn).
Qed.

(** What [saveNote] writes, in terms of the records it read. *)
Lemma upsert_ids note l :
  NoDup (id <$> l) →
  NoDup (id <$> match findIndex (id note) l with
                | Some k => <[k := note]> l
                | None => l ++ [note]
                end).
Proof.
  intros Hnd. destruct (findIndex (id note) l) as [k|] eqn:E.
  - apply findIndex_Some in E as (old & Hk & Hid).
    rewrite list_fmap_insert, list_insert_id; [done|].
    by rewrite list_lookup_fmap, Hk, <- Hid.
  - apply findIndex_None in E. rewrite fmap_app. simpl.
    apply NoDup_app. split; [done|]. split; [|apply NoDup_singleton].
    intros x Hx Hx'. apply list_elem_of_singleton in Hx' as ->. done.
Qed.

Lemma upsert_elem note l n :
  NoDup (id <$> l) →
  n ∈ match findIndex (id note) l with
      | Some k => <[k := note]> l
      | None => l ++ [note]
      end
  ↔ n = note ∨ (n ∈ l ∧ id n ≠ id note).
Proof.
  intros Hnd. destruct (findIndex (id note) l) as [k|] eqn:E.
  - apply findIndex_Some in E as (old & Hk & Hid).
    rewrite insert_take_drop by (by eapply lookup_lt_Some).
    rewrite <- (take_drop_middle l k old Hk) in Hnd.
    rewrite <- (take_drop_middle l k old Hk) at 3.
    rewrite fmap_app, fmap_cons in Hnd.
    apply NoDup_app in Hnd as (_ & Hdisj & Hnd2).
    apply NoDup_cons in Hnd2 as [Hold _].
    rewrite !elem_of_app, !elem_of_cons. split.
    + intros [Hn|[->|Hn]]; [right|by left|right].
      * split; [by left|]. intros Hid'.
        apply (Hdisj (id n)); [by apply list_elem_of_fmap_2|].
        rewrite Hid', <- Hid. by left.
      * split; [by right; right|]. intros Hid'.
        apply Hold. rewrite Hid, <- Hid'. by apply list_elem_of_fmap_2.
    + intros [->| [ [Hn| [->|Hn] ] Hne] ]; [by right; left|by left|done|by right; right].
  - apply findIndex_None in E. rewrite elem_of_app, list_elem_of_singleton. split.
    + intros [Hn| ->]; [right|by left]. split; [done|].
      intros Hid. apply E. rewrite <- Hid. by apply list_elem_of_fmap_2.
    + intros [->|[Hn _]]; [by right|by left].
Qed.

Lemma sort_insert_sorted x l :
  StronglySorted (fun a b : Note => (createdAt b ≤ createdAt a)%Z) l →
  StronglySorted (fun a b : Note => (createdAt b ≤ createdAt a)%Z)
                 (sort_insert newest_first x l).
Proof.
  induction 1 as [|y l Hs IH Hy]; simpl; [repeat constructor|].
  unfold newest_first at 1.
  destruct (Z.leb_spec (createdAt y) (createdAt x)) as [Hle|Hlt].
  - constructor; [by constructor|]. constructor; [done|].
    eapply Forall_impl; [exact Hy|]. intros z Hz. simpl in Hz. lia.
  - constructor; [done|]. rewrite sort_insert_perm. constructor; [lia|done].
Qed.

Lemma js_sort_sorted l :
  StronglySorted (fun a b : Note => (createdAt b ≤ createdAt a)%Z)
                 (js_sort newest_first l).
Proof.
  induction l as [|x l IH]; simpl; [constructor|]. by apply sort_insert_sorted.
Qed.

(** Sorting a list that is in order gives it back. *)
Lemma js_sort_sorted_id l :
  StronglySorted (fun a b : Note => (createdAt b ≤ createdAt a)%Z) l →
  js_sort newest_first l = l.
Proof.
  induction 1 as [|x l Hs IH Hx]; [done|].
  simpl. change (foldr (sort_insert newest_first) [] l) with (js_sort newest_first l).
  rewrite IH. destruct l as [|y l]; [done|]. simpl.
  apply Forall_cons in Hx as [Hxy _]. unfold newest_first.
  destruct (Z.leb_spec (createdAt y) (createdAt x)); [done|lia].
Qed.

Lemma js_sort_ids (l : list Note) : id <$> js_sort newest_first l ≡ₚ id <$> l.
Proof. by rewrite js_sort_perm. Qed.

(** X21. [saveNote] of the [localStorage] store is an upsert: when the
    item holds one record per id it still does afterwards, a read lists the
    saved note together with the notes of the other ids and no other
    record, and saving the same note again changes nothing that a read
    shows. *)
Theorem local_storage_saveNote_is_upsert (st : Storage) (note : Note) :
  one_record_per_id st →
  one_record_per_id (saveNote storage_works note st)
  ∧ (∀ n, n ∈ getAllNotes storage_works (saveNote storage_works note st)
          ↔ n = note ∨ (n ∈ getAllNotes storage_works st ∧ id n ≠ id note))
  ∧ getAllNotes storage_works
      (saveNote storage_works note (saveNote storage_works note st))
    = getAllNotes storage_works (saveNote storage_works note st).
Proof.
  intros Hnd. unfold one_record_per_id, saveNote, getAllNotes in *. simpl.
  set (l := js_sort newest_first (default [] (notesItem st))).
  assert (NoDup (id <$> l)) as Hl by (unfold l; by rewrite js_sort_ids).
  set (l' := match findIndex (id note) l with
             | Some k => <[k := note]> l
             | None => l ++ [note]
             end).
  assert (NoDup (id <$> l')) as Hl' by by apply upsert_ids.
  split; [done|]. split.
  - intros n. rewrite js_sort_perm. by apply upsert_elem.
  - set (l2 := js_sort newest_first l').
    assert (NoDup (id <$> l2)) as Hl2 by (unfold l2; by rewrite js_sort_ids).
    assert (note ∈ l2) as Hin.
    { unfold l2. rewrite js_sort_perm. apply upsert_elem; [done|by left]. }
    assert (match findIndex (id note) l2 with
            | Some k => <[k := note]> l2
            | None => l2 ++ [note]
            end = l2) as ->.
    { destruct (findIndex (id note) l2) as [k|] eqn:E.
      + apply findIndex_Some in E as (old & Hk & Hid).
        apply list_insert_id. rewrite Hk. f_equal.
        apply list_elem_of_lookup in Hin as [k' Hk'].
        assert (k = k') as <-; [|congruence].
        apply (NoDup_lookup (id <$> l2) k k' (id note)); [done| |].
        * by rewrite list_lookup_fmap, Hk, <- Hid.
        * by rewrite list_lookup_fmap, Hk'.
      + apply findIndex_None in E. destruct E. by apply list_elem_of_fmap_2. }
    apply js_sort_sorted_id, js_sort_sorted.
Qed.

(** X22. [deleteNote] of the [localStorage] store: a read afterwards
    lists exactly the notes of the other ids; the item keeps one record per
    id, and the sync queue item is not touched. *)
Theorem local_storage_deleteNote_removes_the_id (st : Storage) (i : string) :
  (∀ n, n ∈ getAllNotes storage_works (deleteNote storage_works i st)
        ↔ n ∈ getAllNotes storage_works st ∧ id n ≠ i)
  ∧ (one_record_per_id st → one_record_per_id (deleteNote storage_works i st))
  ∧ syncQueueItem (deleteNote storage_works i st) = syncQueueItem st.
Proof.
  unfold one_record_per_id, deleteNote, getAllNotes. simpl. split; [|split; [|done]].
  - intros n. rewrite js_sort_perm. by rewrite list_elem_of_filter, (comm and).
  - intros Hnd. apply (NoDup_fmap_2_strong _).
    + intros x y Hx%list_elem_of_filter Hy%list_elem_of_filter Hxy.
      destruct Hx as [_ Hx], Hy as [_ Hy].
      rewrite js_sort_perm in Hx, Hy.
      apply list_elem_of_lookup in Hx as [kx Hkx], Hy as [ky Hky].
      assert (kx = ky) as ->; [|congruence].
      apply (NoDup_lookup _ kx ky (id x) Hnd).
      * by rewrite list_lookup_fmap, Hkx.
      * by rewrite list_lookup_fmap, Hky, Hxy.
    + apply NoDup_filter.
      assert (NoDup (js_sort newest_first (default [] (notesItem st)))) as H;
        [|done].
      rewrite js_sort_perm. by eapply NoDup_fmap_1.
Qed.

(** X23. The queue of the [localStorage] store loses no entry: after
    any number of [addToSyncQueue] calls, whatever the clock read at each of
    them, [getSyncQueue] gives the earlier entries followed by the added
    ones in the order of the calls; [clearSyncQueue] empties it; the notes
    item is not touched. *)
Theorem local_storage_queue_keeps_every_entry
    (ops : list (Z * SyncOperation)) (st : Storage) :
  getSyncQueue storage_works
    (foldl (fun s e => addToSyncQueue storage_works e.1 e.2 s) st ops)
  = getSyncQueue storage_works st
    ++ ((fun e => mkOp (Some e.1) (operation e.2) (timestamp e.2)) <$> ops)
  ∧ getSyncQueue storage_works
      (clearSyncQueue storage_works
         (foldl (fun s e => addToSyncQueue storage_works e.1 e.2 s) st ops))
    = []
  ∧ notesItem (foldl (fun s e => addToSyncQueue storage_works e.1 e.2 s) st ops)
    = notesItem st.
Proof.
  split; [|split; [done|]].
  - revert st. induction ops as [|[now op] ops IH]; intros st.
    { simpl. by rewrite app_nil_r. }
    cbn [foldl]. rewrite IH. rewrite fmap_cons. cbn [fst snd].
    unfold addToSyncQueue at 1. simpl. unfold getSyncQueue. simpl. by rewrite <- app_assoc.
  - revert st. induction ops as [|[now op] ops IH]; intros st; [done|].
    cbn [foldl]. by rewrite IH.
Qed.

End LocalStorageFacts.

(** ** The further statements at work on the example worlds *)

Section FurtherExamples.
Local Existing Instance TimeKeyedStore.indexedDBService.
Import NotesService.

Lemma getAllNotes_lists_store_newest_first_witness :
  eval TimeKeyedStore.getAllNotes world_online = Val (stored (notes world_online))
  ∧ StronglySorted display_order (stored (notes world_online)).
Proof.
  destruct (getAllNotes_lists_store_newest_first world_online) as (H1 & _ & _ & _ & H5).
  - reflexivity.
  - apply keyPath_ok_insert with (note := note_a).
    apply keyPath_ok_insert with (note := note_b).
    apply map_Forall_empty.
  - split; assumption.
Defined.

Lemma saveNote_is_upsert_witness :
  notes (exec (TimeKeyedStore.saveNote remote_a_newer ;;
               TimeKeyedStore.saveNote remote_a_newer) world_online)
  = notes (exec (TimeKeyedStore.saveNote remote_a_newer) world_online).
Proof.
  destruct (saveNote_is_upsert world_online remote_a_newer) as [_ H].
  - reflexivity.
  - reflexivity.
  - apply keyPath_ok_insert with (note := note_a).
    apply keyPath_ok_insert with (note := note_b).
    apply map_Forall_empty.
  - exact H.
Defined.

Lemma deleteNote_is_idempotent_witness :
  notes (exec (TimeKeyedStore.deleteNote "a") world_local)
  = delete "a" (notes world_local).
Proof.
  destruct (deleteNote_is_idempotent world_local "a") as (_ & _ & H).
  destruct H as (H & _).
  - reflexivity.
  - reflexivity.
  - exact H.
Defined.

Lemma pull_never_moves_a_note_back_witness :
  not_older (notes world_online) (notes (exec syncFromSupabase world_online)).
Proof.
  apply (pull_never_moves_a_note_back world_online).
  - apply keyPath_ok_insert with (note := note_a).
    apply keyPath_ok_insert with (note := note_b).
    apply map_Forall_empty.
  - intros [H|[H _]]; discriminate H.
Defined.

Lemma pull_is_idempotent_witness :
  notes (exec (syncFromSupabase ;; syncFromSupabase) world_online)
  = notes (exec syncFromSupabase world_online).
Proof.
  apply (pull_is_idempotent world_online [remote_a_newer; remote_b_older]).
  - reflexivity.
  - reflexivity.
  - intros n. reflexivity.
  - apply keyPath_ok_insert with (note := note_a).
    apply keyPath_ok_insert with (note := note_b).
    apply map_Forall_empty.
  - reflexivity.
  - reflexivity.
  - apply NoDup_cons. split; [|apply NoDup_singleton].
    intros H. apply list_elem_of_singleton in H. discriminate.
Defined.

Lemma reconnection_flush_witness :
  syncQueue (exec syncToSupabase world_reconnected) = ∅
  ∧ remoteLog (exec syncToSupabase world_reconnected)
    = remoteLog world_reconnected
      ++ (call_of <$> queue_getAll (syncQueue world_reconnected)).
Proof.
  destruct (reconnection_flush world_reconnected) as (H1 & H2 & _).
  - reflexivity.
  - reflexivity.
  - intros n. reflexivity.
  - repeat constructor.
  - intros j _ H. discriminate H.
  - split; assumption.
Defined.

Lemma online_create_witness :
  eval (createNote input_x) world_online = Val (created input_x world_online)
  ∧ notes (exec (createNote input_x) world_online)
    = <[id (created input_x world_online) := created input_x world_online]>
        (notes world_online).
Proof.
  destruct (online_create world_online input_x) as (H1 & H2 & _).
  - reflexivity.
  - reflexivity.
  - intros n. reflexivity.
  - split; assumption.
Defined.

Lemma online_delete_witness :
  eval (deleteNote "a") world_online = Val true
  ∧ remoteLog (exec (deleteNote "a") world_online)
    = remoteLog world_online ++ [Delete "a"].
Proof.
  destruct (online_delete world_online "a") as (H1 & _ & H3 & _).
  - reflexivity.
  - reflexivity.
  - intros n. reflexivity.
  - split; assumption.
Defined.

Lemma online_update_witness :
  eval (updateNote "a" input_x) world_online
  = Val (Some (updated "a" input_x note_a world_online)).
Proof.
  destruct (online_update world_online "a" input_x note_a) as (H1 & _).
  - reflexivity.
  - reflexivity.
  - intros n. reflexivity.
  - apply keyPath_ok_insert with (note := note_a).
    apply keyPath_ok_insert with (note := note_b).
    apply map_Forall_empty.
  - reflexivity.
  - exact H1.
Defined.

Lemma auto_increment_queue_is_fifo_witness :
  eval (AutoIncrementStore.addToSyncQueue (mkOp None (OpDelete "a") 1000) ;;
        AutoIncrementStore.getSyncQueue) world_offline
  = Val (queue_getAll (syncQueue world_offline)
         ++ [mkOp (Some (keyGen world_offline)) (OpDelete "a") 1000]).
Proof.
  destruct (auto_increment_queue_is_fifo world_offline (mkOp None (OpDelete "a") 1000))
    as (H & _).
  - reflexivity.
  - reflexivity.
  - reflexivity.
  - intros k [op Hk]. simpl in Hk. rewrite lookup_empty in Hk. discriminate.
  - exact H.
Defined.

Lemma time_keyed_queue_is_fifo_while_clock_advances_witness :
  eval (TimeKeyedStore.addToSyncQueue (mkOp None (OpDelete "a") 1000) ;;
        TimeKeyedStore.getSyncQueue) world_unreachable
  = Val (queue_getAll (syncQueue world_unreachable)
         ++ [mkOp (Some (clock (host world_unreachable) (tick world_unreachable)))
                  (OpDelete "a") 1000]).
Proof.
  apply (time_keyed_queue_is_fifo_while_clock_advances
           world_unreachable (mkOp None (OpDelete "a") 1000)).
  - reflexivity.
  - reflexivity.
  - intros k [op Hk]. simpl in Hk.
    apply lookup_insert_Some in Hk as [[<- _]|[_ Hk]]; [reflexivity|].
    apply lookup_singleton_Some in Hk as [<- _]. reflexivity.
Defined.

Lemma reads_stay_local_witness :
  untouched getAllNotes world_offline
  ∧ eval getAllNotes world_offline = Val (stored (notes world_offline)).
Proof.
  destruct (reads_stay_local world_offline) as (H1 & _ & H3).
  - reflexivity.
  - split; [exact H1|]. apply H3. reflexivity.
Defined.

Lemma online_read_pushes_then_pulls_witness :
  remoteLog (exec getAllNotes world_reconnected)
  = remoteLog world_reconnected
    ++ (call_of <$> queue_getAll (syncQueue world_reconnected)) ++ [SelectAll]
  ∧ syncQueue (exec getAllNotes world_reconnected) = ∅.
Proof.
  destruct (online_read_pushes_then_pulls world_reconnected [remote_a_newer])
    as (_ & H2 & H3 & _).
  - reflexivity.
  - reflexivity.
  - intros n. reflexivity.
  - apply keyPath_ok_insert with (note := note_a). apply map_Forall_empty.
  - repeat constructor.
  - intros j _ H. discriminate H.
  - reflexivity.
  - apply NoDup_singleton.
  - split; assumption.
Defined.
Lemma online_recolor_witness :
  eval (updateNoteColor "a" "green") world_online = Val true
  ∧ notes (exec (updateNoteColor "a" "green") world_online)
    = <["a" := recolored "green" note_a world_online]> (notes world_online).
Proof.
  destruct (online_recolor world_online "a" "green" note_a) as (H1 & H2 & _).
  - reflexivity.
  - reflexivity.
  - intros n. reflexivity.
  - apply keyPath_ok_insert with (note := note_a).
    apply keyPath_ok_insert with (note := note_b).
    apply map_Forall_empty.
  - reflexivity.
  - split; assumption.
Defined.
End FurtherExamples.

Lemma earlier_pull_mirrors_the_remote_witness :
  notes (exec (EarlierNotesService.syncFromSupabase
                 (indexedDBService := AutoIncrementStore.indexedDBService))
              world_online)
  = js_Map (EarlierNotesService.row <$> [remote_a_newer; remote_b_older]).
Proof.
  apply (earlier_pull_mirrors_the_remote world_online).
  - reflexivity.
  - reflexivity.
  - intros n. reflexivity.
  - apply keyPath_ok_insert with (note := note_a).
    apply keyPath_ok_insert with (note := note_b).
    apply map_Forall_empty.
Defined.

Lemma local_storage_saveNote_is_upsert_witness :
  one_record_per_id (LocalStorageStore.saveNote storage_works remote_a_newer example_storage).
Proof.
  destruct (local_storage_saveNote_is_upsert example_storage remote_a_newer) as (H & _).
  - apply NoDup_cons. split; [|apply NoDup_singleton].
    intros H. apply list_elem_of_singleton in H. discriminate.
  - exact H.
Defined.

Lemma local_storage_deleteNote_removes_the_id_witness :
  one_record_per_id (LocalStorageStore.deleteNote storage_works "a" example_storage).
Proof.
  destruct (local_storage_deleteNote_removes_the_id example_storage "a") as (_ & H & _).
  apply H. apply NoDup_cons. split; [|apply NoDup_singleton].
  intros H'. apply list_elem_of_singleton in H'. discriminate.
Defined.

